(** * apply-patch: the envelope/hunk/chunk parser and the update applier

    A shallow embedding of [src/ApplyPatch.ts].  JavaScript strings are
    sequences of UTF-16 code units; arrays are lists read by index with
    stdpp's lookup.  Loops that the source bounds by an index running up to
    [lines.length] are recursions on the remaining lines; the two loops whose
    progress depends on a callee's [consumed] count take fuel. *)

From Stdlib Require Import NArith String Ascii.
From stdpp Require Import base decidable option numbers list sorting gmap.

Set Default Proof Using "Type".

(** ** JavaScript strings *)

Module JS.

(** A string is its list of UTF-16 code units. *)
Definition str : Type := list N.

(** An ASCII literal as a JavaScript string. *)
Definition lit (s : string) : str :=
  (fun a => N_of_ascii a) <$> list_ascii_of_string s.

(** ECMAScript [WhiteSpace] and [LineTerminator] code units, the ones
    [String.prototype.trim] strips. *)
Definition isWhite (c : N) : bool :=
  ((9 <=? c) && (c <=? 13) ||
   (c =? 32) || (c =? 160) || (c =? 5760) ||
   (8192 <=? c) && (c <=? 8202) ||
   (c =? 8232) || (c =? 8233) || (c =? 8239) || (c =? 8287) ||
   (c =? 12288) || (c =? 65279))%N.

Fixpoint trimStart (s : str) : str :=
  match s with
  | [] => []
  | c :: s' => if isWhite c then trimStart s' else s
  end.

Definition trimEnd (s : str) : str := reverse (trimStart (reverse s)).

Definition trim (s : str) : str := trimEnd (trimStart s).

(** [s.startsWith(p)] *)
Fixpoint startsWith (s p : str) : bool :=
  match p, s with
  | [], _ => true
  | _ :: _, [] => false
  | c :: p', d :: s' => if decide (d = c) then startsWith s' p' else false
  end.

(** [s.substring(k)] for [k >= 0] *)
Definition substring (s : str) (k : nat) : str := drop k s.

Definition newline : N := 10%N.

(** [s.split('\n')]: never empty, [['']] for the empty string. *)
Fixpoint split (s : str) : list str :=
  match s with
  | [] => [[]]
  | c :: s' =>
      if decide (c = newline) then [] :: split s'
      else match split s' with
           | l :: ls => (c :: l) :: ls
           | [] => [[c]]
           end
  end.

(** [l.join('\n')] *)
Fixpoint join (l : list str) : str :=
  match l with
  | [] => []
  | [x] => x
  | x :: xs => x ++ newline :: join xs
  end.

End JS.

Import JS.

Arguments lit : simpl never.

(** ** Line Matcher: [seekSequence] *)

(** The exact pass of one candidate position: the inner [for j] loop with
    [lines[i + j] !== pattern[j]], [k] standing for [i + j].  The outer loop's
    bound keeps [i + j] inside [lines]; an index outside would read
    [undefined], which is different from every string. *)
Fixpoint exactFrom (lines : list str) (k : nat) (pattern : list str) : bool :=
  match pattern with
  | [] => true
  | p :: ps =>
      match lines !! k with
      | Some l => if decide (l = p) then exactFrom lines (S k) ps else false
      | None => false
      end
  end.

(** The trimmed pass: [lines[i + j].trim() !== pattern[j].trim()].  The
    pass runs for [i <= lines.length - pattern.length] and [j <
    pattern.length] only, so [lines[i + j]] is a string whenever it is
    trimmed. *)
Fixpoint trimmedFrom (lines : list str) (k : nat) (pattern : list str) : bool :=
  match pattern with
  | [] => true
  | p :: ps =>
      match lines !! k with
      | Some l =>
          if decide (trim l = trim p) then trimmedFrom lines (S k) ps else false
      | None => false
      end
  end.

(** The outer [for (let i = start; i <= lines.length - pattern.length; i++)]
    with [n] the number of iterations left. *)
Fixpoint seekLoop (lines pattern : list str) (i n : nat) : option nat :=
  match n with
  | 0 => None
  | S n' =>
      if exactFrom lines i pattern then Some i
      else if trimmedFrom lines i pattern then Some i
      else seekLoop lines pattern (S i) n'
  end.

Definition seekSequence (lines pattern : list str) (start : nat) : option nat :=
  if decide (length pattern = 0) then Some start
  else if decide (length lines < length pattern) then None
  else seekLoop lines pattern start (S (length lines - length pattern) - start).

(** What the claims call a match of the pattern at position [i]: every
    pattern line is related by [R] to the haystack line facing it. *)
Definition MatchAt (R : str -> str -> Prop) (lines pattern : list str) (i : nat) : Prop :=
  forall j p, pattern !! j = Some p -> exists l, lines !! (i + j) = Some l /\ R l p.

Definition ExactAt := MatchAt (fun l p => l = p).
Definition TrimmedAt := MatchAt (fun l p => trim l = trim p).
Definition FoundAt (lines pattern : list str) (i : nat) : Prop :=
  ExactAt lines pattern i \/ TrimmedAt lines pattern i.

(** ** Errors and results *)

(** The [ApplyPatchError] object built by [createError]; [details] is never
    set and every call site passes a message and a status only. *)
Record ApplyPatchError : Type := {
  message : str;
  status : option N;
  hint : option str
}.

Definition createError (message : str) (status : N) : ApplyPatchError :=
  {| message := message; status := Some status; hint := None |}.

(** What a call can throw: an error made by [createError], or the
    [TypeError] of a method call on [undefined]. *)
Inductive exn : Type :=
  | Thrown (e : ApplyPatchError)
  | TypeError.

Inductive result (A : Type) : Type :=
  | Ok (a : A)
  | Throw (e : exn).
Arguments Ok {A} a.
Arguments Throw {A} e.

Definition fail {A : Type} (message : str) : result A :=
  Throw (Thrown (createError message 400)).

(** Exceptions propagate: the rest of a computation runs on [Ok] only. *)
#[export] Instance result_bind : MBind result := fun A B k r =>
  match r with
  | Ok a => k a
  | Throw e => Throw e
  end.

(** ** Data model *)

Record UpdateFileChunk : Type := {
  changeContext : option str;
  oldLines : list str;
  newLines : list str;
  isEndOfFile : bool
}.

Inductive Hunk : Type :=
  | AddFile (path contents : str)
  | DeleteFile (path : str)
  | UpdateFile (path : str) (movePath : option str) (chunks : list UpdateFileChunk).

Definition BEGIN_PATCH_MARKER : str := lit "*** Begin Patch".
Definition END_PATCH_MARKER : str := lit "*** End Patch".
Definition ADD_FILE_MARKER : str := lit "*** Add File: ".
Definition DELETE_FILE_MARKER : str := lit "*** Delete File: ".
Definition UPDATE_FILE_MARKER : str := lit "*** Update File: ".
Definition MOVE_TO_MARKER : str := lit "*** Move to: ".
Definition EOF_MARKER : str := lit "*** End of File".
Definition CHANGE_CONTEXT_MARKER : str := lit "@@ ".
Definition EMPTY_CHANGE_CONTEXT_MARKER : str := lit "@@".

(** ** Chunk Parser: [parseUpdateFileChunk] *)

Definition pushOld (c : UpdateFileChunk) (s : str) : UpdateFileChunk :=
  {| changeContext := changeContext c; oldLines := oldLines c ++ [s];
     newLines := newLines c; isEndOfFile := isEndOfFile c |}.

Definition pushNew (c : UpdateFileChunk) (s : str) : UpdateFileChunk :=
  {| changeContext := changeContext c; oldLines := oldLines c;
     newLines := newLines c ++ [s]; isEndOfFile := isEndOfFile c |}.

Definition setEndOfFile (c : UpdateFileChunk) : UpdateFileChunk :=
  {| changeContext := changeContext c; oldLines := oldLines c;
     newLines := newLines c; isEndOfFile := true |}.

(** The body loop [while (i < lines.length)], [rest] being the lines from
    index [i] on.  It returns the chunk and the index at which it stopped. *)
Fixpoint chunkBody (rest : list str) (i : nat) (chunk : UpdateFileChunk)
    (hasContent : bool) : result (UpdateFileChunk * nat) :=
  match rest with
  | [] => Ok (chunk, i)
  | line :: rest' =>
      if decide (line = EOF_MARKER) then Ok (setEndOfFile chunk, S i)
      else if startsWith line (lit "***") || startsWith line (lit "@@") then
        Ok (chunk, i)
      else
        let prefix := head line in
        let content := substring line 1 in
        if decide (prefix = Some 32%N) then
          chunkBody rest' (S i) (pushNew (pushOld chunk content) content) true
        else if decide (prefix = Some 45%N) then
          chunkBody rest' (S i) (pushOld chunk content) true
        else if decide (prefix = Some 43%N) then
          chunkBody rest' (S i) (pushNew chunk content) true
        else if decide (trim line = []) then
          chunkBody rest' (S i) (pushNew (pushOld chunk []) []) true
        else if hasContent then Ok (chunk, i)
        else fail (lit "Unexpected line in update hunk: '" ++ line ++ lit "'")
  end.

Definition parseUpdateFileChunk (lines : list str) (startIndex : nat)
    : result (UpdateFileChunk * nat) :=
  match lines !! startIndex with
  | None => Throw TypeError
  | Some first =>
      let '(changeContext, i) :=
        if decide (first = EMPTY_CHANGE_CONTEXT_MARKER) then (None, S startIndex)
        else if startsWith first CHANGE_CONTEXT_MARKER then
          (Some (substring first (length CHANGE_CONTEXT_MARKER)), S startIndex)
        else (None, startIndex) in
      let chunk := {| changeContext := changeContext; oldLines := [];
                      newLines := []; isEndOfFile := false |} in
      '(chunk, i) ← chunkBody (drop i lines) i chunk false;
      Ok (chunk, i - startIndex)
  end.

(** ** Hunk Parser: [parseOneHunk] *)

(** [while (i < lines.length && lines[i].startsWith('+'))] of an add hunk. *)
Fixpoint addLoop (rest : list str) (contents : str) (i : nat) : str * nat :=
  match rest with
  | [] => (contents, i)
  | line :: rest' =>
      if startsWith line (lit "+") then
        addLoop rest' (contents ++ substring line 1 ++ [newline]) (S i)
      else (contents, i)
  end.

(** The chunk-collection loop of an update hunk.  An iteration adds the
    chunk parser's [consumed] to [i], so nothing in the loop itself bounds
    the number of iterations: it runs on fuel, [None] meaning that the fuel
    ran out before the loop condition became false. *)
Fixpoint chunkLoop (fuel : nat) (lines : list str) (i : nat)
    (chunks : list UpdateFileChunk) : option (result (list UpdateFileChunk * nat)) :=
  match lines !! i with
  | None => Some (Ok (chunks, i))
  | Some line =>
      if startsWith line (lit "***") then Some (Ok (chunks, i))
      else
        match fuel with
        | 0 => None
        | S fuel' =>
            if decide (trim line = []) then chunkLoop fuel' lines (S i) chunks
            else
              match parseUpdateFileChunk lines i with
              | Throw e => Some (Throw e)
              | Ok (chunk, consumed) =>
                  chunkLoop fuel' lines (i + consumed) (chunks ++ [chunk])
              end
        end
  end.

Definition parseOneHunk (fuel : nat) (lines : list str) (startIndex : nat)
    : option (result (Hunk * nat)) :=
  match lines !! startIndex with
  | None => Some (Throw TypeError)
  | Some raw =>
      let line := trim raw in
      if startsWith line ADD_FILE_MARKER then
        let filePath := substring line (length ADD_FILE_MARKER) in
        let '(contents, i) :=
          addLoop (drop (S startIndex) lines) [] (S startIndex) in
        Some (Ok (AddFile filePath contents, i - startIndex))
      else if startsWith line DELETE_FILE_MARKER then
        let filePath := substring line (length DELETE_FILE_MARKER) in
        Some (Ok (DeleteFile filePath, 1))
      else if startsWith line UPDATE_FILE_MARKER then
        let filePath := substring line (length UPDATE_FILE_MARKER) in
        let '(movePath, i) :=
          match lines !! S startIndex with
          | Some next =>
              if startsWith next MOVE_TO_MARKER then
                (Some (substring next (length MOVE_TO_MARKER)), S (S startIndex))
              else (None, S startIndex)
          | None => (None, S startIndex)
          end in
        match chunkLoop fuel lines i [] with
        | None => None
        | Some (Throw e) => Some (Throw e)
        | Some (Ok (chunks, i)) =>
            if decide (length chunks = 0) then
              Some (fail (lit "Update file hunk for path '" ++ filePath
                            ++ lit "' is empty"))
            else Some (Ok (UpdateFile filePath movePath chunks, i - startIndex))
        end
      else Some (fail (lit "Invalid hunk header: '" ++ line ++ lit "'"))
  end.

(** ** Envelope Parser: [parsePatch] *)

(** [while (i < lines.length - 1)], on fuel like the loop it calls. *)
Fixpoint hunkLoop (fuel : nat) (lines : list str) (i : nat) (hunks : list Hunk)
    : option (result (list Hunk)) :=
  if decide (i < length lines - 1) then
    match fuel with
    | 0 => None
    | S fuel' =>
        match parseOneHunk fuel' lines i with
        | None => None
        | Some (Throw e) => Some (Throw e)
        | Some (Ok (hunk, consumed)) =>
            hunkLoop fuel' lines (i + consumed) (hunks ++ [hunk])
        end
    end
  else Some (Ok hunks).

Definition parsePatch (fuel : nat) (patch : str) : option (result (list Hunk)) :=
  let lines := split (trim patch) in
  if decide (length lines < 2) then
    Some (fail (lit "Patch must have at least begin and end markers"))
  else if decide (lines !! 0 <> Some BEGIN_PATCH_MARKER) then
    Some (fail (lit "The first line of the patch must be '*** Begin Patch'"))
  else if decide (last lines <> Some END_PATCH_MARKER) then
    Some (fail (lit "The last line of the patch must be '*** End Patch'"))
  else hunkLoop fuel lines 1 [].

(** ** Applier: [applyUpdateChunks]

    Reading and writing the file belong to the filesystem collaborator:
    the model takes the text that [readFile] returned and returns the text
    handed to [writeFile]. *)

(** One queued [{ start, length, newLines }]. *)
Record Replacement : Type := {
  rStart : nat;
  rLength : nat;
  rNewLines : list str
}.

(** [content.split('\n')], minus one trailing empty line. *)
Definition fileLines (content : str) : list str :=
  let lines := split content in
  if decide (last lines = Some []) then removelast lines else lines.

(** The context step.  [if (chunk.changeContext)] is a truthiness test: an
    absent hint and the empty string both skip the search. *)
Definition seekContext (lines : list str) (chunk : UpdateFileChunk)
    (searchStart : nat) : nat :=
  match changeContext chunk with
  | None => searchStart
  | Some ctx =>
      if decide (ctx = []) then searchStart
      else match seekSequence lines [ctx] searchStart with
           | Some contextIndex => contextIndex + 1
           | None => searchStart
           end
  end.

(** The pattern and the replacement lines after the end-of-file
    normalization ([slice(0, -1)] drops the last element). *)
Definition normalize (chunk : UpdateFileChunk) : list str * list str :=
  let pattern := oldLines chunk in
  let newLines := newLines chunk in
  if decide (last pattern = Some [] /\ isEndOfFile chunk = false) then
    (removelast pattern,
     if decide (last newLines = Some []) then removelast newLines else newLines)
  else (pattern, newLines).

Definition matchError (pattern : list str) : exn :=
  Thrown (createError
            (lit "Failed to find expected lines:" ++ newline :: join pattern) 400).

(** The body of [for (const chunk of chunks)]: the replacement it queues and
    the cursor it leaves. *)
Definition processChunk (lines : list str) (chunk : UpdateFileChunk)
    (searchStart : nat) : result (Replacement * nat) :=
  let searchStart := seekContext lines chunk searchStart in
  if decide (length (oldLines chunk) = 0) then
    Ok ({| rStart := length lines; rLength := 0; rNewLines := newLines chunk |},
        searchStart)
  else
    let '(pattern, newLines) := normalize chunk in
    match seekSequence lines pattern searchStart with
    | None => Throw (matchError pattern)
    | Some matchIndex =>
        Ok ({| rStart := matchIndex; rLength := length pattern;
               rNewLines := newLines |},
            matchIndex + length pattern)
    end.

Fixpoint chunksLoop (lines : list str) (chunks : list UpdateFileChunk)
    (searchStart : nat) (replacements : list Replacement)
    : result (list Replacement * nat) :=
  match chunks with
  | [] => Ok (replacements, searchStart)
  | chunk :: rest =>
      '(r, searchStart') ← processChunk lines chunk searchStart;
      chunksLoop lines rest searchStart' (replacements ++ [r])
  end.

(** [replacements.sort((a, b) => b.start - a.start)]: descending by start,
    and stable, as [Array.prototype.sort] is. *)
Fixpoint insertByStart (r : Replacement) (sorted : list Replacement)
    : list Replacement :=
  match sorted with
  | [] => [r]
  | x :: xs =>
      if decide (rStart r < rStart x) then x :: insertByStart r xs
      else r :: sorted
  end.

Definition sortByStartDesc (rs : list Replacement) : list Replacement :=
  foldr insertByStart [] rs.

(** [lines.splice(start, deleteCount, ...items)]; [take] and [drop] clamp
    at the end of the list as [splice] does. *)
Definition splice (lines : list str) (start deleteCount : nat) (items : list str)
    : list str :=
  take start lines ++ items ++ drop (start + deleteCount) lines.

Definition applyReplacements (lines : list str) (rs : list Replacement) : list str :=
  foldl (fun lines r => splice lines (rStart r) (rLength r) (rNewLines r)) lines rs.

(** The trailing-newline step and [lines.join('\n')]. *)
Definition ensureTrailing (lines : list str) : list str :=
  if decide (0 < length lines /\ last lines <> Some []) then lines ++ [[]]
  else lines.

Definition serialize (lines : list str) : str := join (ensureTrailing lines).

(** The line buffer after the splices, before the trailing-newline step. *)
Definition editedLines (content : str) (chunks : list UpdateFileChunk)
    : result (list str) :=
  let lines := fileLines content in
  '(replacements, _) ← chunksLoop lines chunks 0 [];
  Ok (applyReplacements lines (sortByStartDesc replacements)).

Definition applyUpdateChunks (content : str) (chunks : list UpdateFileChunk)
    : result str :=
  lines ← editedLines content chunks;
  Ok (serialize lines).

(** ** Applier: [applyPatch]

    The [fs] and [path] modules are the collaborator.  A filesystem is a
    state with the four promise-returning calls of the source; each call
    takes the state and returns what it resolves to, or the error it rejects
    with, and the state it leaves. *)
Class FileSystem (FS E : Type) : Type := {
  resolve : str -> str -> str;
  dirname : str -> str;
  mkdir : str -> FS -> (E + unit) * FS;
  writeFile : str -> str -> FS -> (E + unit) * FS;
  readFile : str -> FS -> (E + str) * FS;
  unlink : str -> FS -> (E + unit) * FS
}.

(** What [applyPatch] rejects with: something thrown by the parser or the
    update applier, or the rejection of a filesystem call. *)
Inductive rejection (E : Type) : Type :=
  | Raised (e : exn)
  | FsFailed (e : E).
Arguments Raised {E} e.
Arguments FsFailed {E} e.

(** An [async] computation: it runs on the filesystem state, and a
    rejection ends it with the state reached so far. *)
Definition io (FS E A : Type) : Type := FS -> (rejection E + A) * FS.

#[export] Instance io_ret {FS E : Type} : MRet (io FS E) :=
  fun A a fs => (inr a, fs).

#[export] Instance io_bind {FS E : Type} : MBind (io FS E) :=
  fun A B k m fs =>
    match m fs with
    | (inr a, fs') => k a fs'
    | (inl e, fs') => (inl e, fs')
    end.

(** [await] on a filesystem call. *)
Definition await {FS E A : Type} (op : FS -> (E + A) * FS) : io FS E A :=
  fun fs =>
    match op fs with
    | (inr a, fs') => (inr a, fs')
    | (inl e, fs') => (inl (FsFailed e), fs')
    end.

(** A synchronous step that can throw. *)
Definition throwing {FS E A : Type} (r : result A) : io FS E A :=
  fun fs =>
    match r with
    | Ok a => (inr a, fs)
    | Throw e => (inl (Raised e), fs)
    end.

(** One iteration of [for (const hunk of hunks)]: the effects of the hunk
    and the string it pushes to [affectedFiles].  [if (hunk.movePath)] is a
    truthiness test, so the empty destination counts as none. *)
Definition applyHunk {FS E : Type} `{!FileSystem FS E} (cwd : str) (hunk : Hunk)
    : io FS E str :=
  match hunk with
  | AddFile path contents =>
      let fullPath := resolve cwd path in
      _ ← await (mkdir (dirname fullPath));
      _ ← await (writeFile fullPath contents);
      mret (lit "A " ++ path)
  | DeleteFile path =>
      let fullPath := resolve cwd path in
      _ ← await (unlink fullPath);
      mret (lit "D " ++ path)
  | UpdateFile path movePath chunks =>
      let fullPath := resolve cwd path in
      content ← await (readFile fullPath);
      newContent ← throwing (applyUpdateChunks content chunks);
      match movePath with
      | Some destination =>
          if decide (destination = []) then
            _ ← await (writeFile fullPath newContent);
            mret (lit "M " ++ path)
          else
            let newFullPath := resolve cwd destination in
            _ ← await (mkdir (dirname newFullPath));
            _ ← await (writeFile newFullPath newContent);
            _ ← await (unlink fullPath);
            mret (lit "M " ++ destination)
      | None =>
          _ ← await (writeFile fullPath newContent);
          mret (lit "M " ++ path)
      end
  end.

Fixpoint applyHunks {FS E : Type} `{!FileSystem FS E} (cwd : str)
    (hunks : list Hunk) (affectedFiles : list str) : io FS E (list str) :=
  match hunks with
  | [] => mret affectedFiles
  | hunk :: rest =>
      affected ← applyHunk cwd hunk;
      applyHunks cwd rest (affectedFiles ++ [affected])
  end.

(** [applyPatch(patch, cwd)]: parse, then apply hunk after hunk.  [None] is
    a parse that ran out of fuel. *)
Definition applyPatch {FS E : Type} `{!FileSystem FS E} (fuel : nat)
    (patch cwd : str) (fs : FS) : option ((rejection E + list str) * FS) :=
  match parsePatch fuel patch with
  | None => None
  | Some (Throw e) => Some (inl (Raised e), fs)
  | Some (Ok hunks) => Some (applyHunks cwd hunks [] fs)
  end.

(** A filesystem to run examples on: files only, kept in a map from
    resolved path to content; a missing file makes [readFile] and [unlink]
    reject, and every directory exists. *)
Definition noEntry : str := lit "ENOENT".

#[export] Instance memoryFS : FileSystem (gmap str str) str := {|
  resolve cwd path := cwd ++ lit "/" ++ path;
  dirname path := path;
  mkdir _ fs := (inr tt, fs);
  writeFile path content fs := (inr tt, <[path := content]> fs);
  readFile path fs :=
    match fs !! path with
    | Some content => (inr content, fs)
    | None => (inl noEntry, fs)
    end;
  unlink path fs :=
    match fs !! path with
    | Some _ => (inr tt, delete path fs)
    | None => (inl noEntry, fs)
    end
|}.

(** ** Vocabulary of the statements *)

(** The indices at which [parsePatch]'s loop calls the Hunk Parser, with the
    hunks collected so far: index 1 first, then each index plus what the
    hunk parsed there consumed. *)
Inductive HunkPosition (lines : list str) : nat -> list Hunk -> Prop :=
  | HunkPosition_first : HunkPosition lines 1 []
  | HunkPosition_next i hunks fuel hunk consumed :
      HunkPosition lines i hunks ->
      i < length lines - 1 ->
      parseOneHunk fuel lines i = Some (Ok (hunk, consumed)) ->
      HunkPosition lines (i + consumed) (hunks ++ [hunk]).

(** The envelope tests of [parsePatch] all pass. *)
Definition ValidEnvelope (lines : list str) : Prop :=
  2 <= length lines /\ lines !! 0 = Some BEGIN_PATCH_MARKER /\
  last lines = Some END_PATCH_MARKER.

(** The chunk a chunk parser starts from. *)
Definition emptyChunk (changeContext : option str) : UpdateFileChunk :=
  {| changeContext := changeContext; oldLines := []; newLines := [];
     isEndOfFile := false |}.


(** The messages of the header error and of the chunk-body error. *)
Definition invalidHeader (line : str) : str :=
  lit "Invalid hunk header: '" ++ line ++ lit "'".


(** The edit that a queue of replacements describes when every span is
    taken at its position in the original lines: [rest] is the original from
    index [base] on, and each replacement, in queue order, puts its new lines
    in the place of the [rLength] original lines from [rStart]. *)
Fixpoint substituteFrom (rest : list str) (base : nat) (rs : list Replacement)
    : list str :=
  match rs with
  | [] => rest
  | r :: rs' =>
      take (rStart r - base) rest ++ rNewLines r ++
      substituteFrom (drop (rStart r - base + rLength r) rest)
        (rStart r + rLength r) rs'
  end.

(** Queued spans that are non-empty, lie in [lo, hi) and follow one
    another without overlap. *)
Fixpoint Ascending (lo hi : nat) (rs : list Replacement) : Prop :=
  match rs with
  | [] => True
  | r :: rs' =>
      lo <= rStart r /\ 0 < rLength r /\ rStart r + rLength r <= hi /\
      Ascending (rStart r + rLength r) hi rs'
  end.

(** The pattern a chunk is searched with. *)
Definition patternOf (chunk : UpdateFileChunk) : list str := (normalize chunk).1.

(** A line that starts with [@@] and is neither the bare context marker
    nor a context marker followed by a blank. *)
Definition GluedContext (line : str) : Prop :=
  startsWith line (lit "@@") = true /\
  line <> EMPTY_CHANGE_CONTEXT_MARKER /\
  startsWith line CHANGE_CONTEXT_MARKER = false.

(** The [contents] an add hunk builds from its [+] lines. *)
Definition addedContents (plusLines : list str) : str :=
  foldr (fun line contents => substring line 1 ++ [newline] ++ contents) []
    plusLines.

Definition emptyUpdate (filePath : str) : str :=
  lit "Update file hunk for path '" ++ filePath ++ lit "' is empty".

(** A chunk-body line classified by its first character: space, [-], [+]. *)
Definition Prefixed (line : str) : Prop :=
  head line = Some 32%N \/ head line = Some 45%N \/ head line = Some 43%N.

(** The old and the new side of a run of prefixed lines: the lines that
    are not additions, and the lines that are not deletions, without their
    first character. *)
Definition oldSide (body : list str) : list str :=
  (fun line => substring line 1) <$> filter (fun line => head line <> Some 43%N) body.

Definition newSide (body : list str) : list str :=
  (fun line => substring line 1) <$> filter (fun line => head line <> Some 45%N) body.

Definition extend (chunk : UpdateFileChunk) (body : list str) : UpdateFileChunk :=
  {| changeContext := changeContext chunk;
     oldLines := oldLines chunk ++ oldSide body;
     newLines := newLines chunk ++ newSide body;
     isEndOfFile := isEndOfFile chunk |}.

(** A line at which a chunk body stops without consuming it. *)
Definition Boundary (line : str) : Prop :=
  line <> EOF_MARKER /\
  (startsWith line (lit "***") = true \/ startsWith line (lit "@@") = true).

(** What a successfully applied hunk pushes to [affectedFiles]. *)
Definition reportOf (hunk : Hunk) : str :=
  match hunk with
  | AddFile path _ => lit "A " ++ path
  | DeleteFile path => lit "D " ++ path
  | UpdateFile path None _ => lit "M " ++ path
  | UpdateFile path (Some destination) _ =>
      if decide (destination = []) then lit "M " ++ path
      else lit "M " ++ destination
  end.

(** A queued replacement that lies inside the file. *)
Definition InBounds (lines : list str) (r : Replacement) : Prop :=
  rStart r + rLength r <= length lines.

(** The header line of a chunk with the context hint [ctx], or with none. *)
Definition contextHeader (ctx : option str) : str :=
  match ctx with
  | None => EMPTY_CHANGE_CONTEXT_MARKER
  | Some hint => CHANGE_CONTEXT_MARKER ++ hint
  end.

Definition parsedChunk (ctx : option str) (body : list str) (atEnd : bool)
    : UpdateFileChunk :=
  {| changeContext := ctx; oldLines := oldSide body; newLines := newSide body;
     isEndOfFile := atEnd |}.

(** The replacement queued for a pure addition. *)
Definition additionOf (lines : list str) (chunk : UpdateFileChunk) : Replacement :=
  {| rStart := length lines; rLength := 0; rNewLines := newLines chunk |}.

(** The move line of an update hunk, if it has one. *)
Definition moveLines (move : option str) : list str :=
  match move with
  | Some destination => [MOVE_TO_MARKER ++ destination]
  | None => []
  end.

Definition White (s : str) : Prop := Forall (fun c => isWhite c = true) s.

(** ** Inputs used below *)

(** An update hunk whose body starts with [@@] glued to a word. *)
Definition gluedContextPatch : str := lit "*** Begin Patch
*** Update File: a
@@foo
*** End Patch".

(** A delete header written with leading blanks. *)
Definition indentedHeaderPatch : str := lit "*** Begin Patch
  *** Delete File: a
*** End Patch".

(** A line that is no header, written with leading blanks. *)
Definition indentedBogusPatch : str := lit "*** Begin Patch
  bogus
*** End Patch".


(** A chunk header [@@ ] with nothing after the blank, as the chunk parser
    reads it: the context hint is the empty string. *)
Definition emptyHintChunk : UpdateFileChunk :=
  {| changeContext := Some []; oldLines := [lit "b"]; newLines := [lit "c"];
     isEndOfFile := false |}.

(** A file whose line [b] stands on both sides of a blank line. *)
Definition blankSecondLine : list str := [lit "b"; []; lit "b"].

(** Removing the only line of a file, and replacing the first line of a file
    that ends in blank lines. *)
Definition removeA : UpdateFileChunk :=
  {| changeContext := None; oldLines := [lit "a"]; newLines := [];
     isEndOfFile := false |}.

Definition replaceAbyB : UpdateFileChunk :=
  {| changeContext := None; oldLines := [lit "a"]; newLines := [lit "b"];
     isEndOfFile := false |}.

Definition replaceBarByBaz : UpdateFileChunk :=
  {| changeContext := None; oldLines := [lit "bar"]; newLines := [lit "baz"];
     isEndOfFile := false |}.

(** An insertion whose pattern normalizes to nothing, followed by a
    replacement of the first line. *)
Definition tiePatch : str := lit "*** Begin Patch
*** Update File: f
@@
+n1

@@
-x
+z
*** End Patch".

Definition insertN1 : UpdateFileChunk :=
  {| changeContext := None; oldLines := [[]]; newLines := [lit "n1"; []];
     isEndOfFile := false |}.

Definition replaceXbyZ : UpdateFileChunk :=
  {| changeContext := None; oldLines := [lit "x"]; newLines := [lit "z"];
     isEndOfFile := false |}.

(** The move and the failing update of the test-suite, and a directory
    holding their files. *)
Definition movePatch : str := lit "*** Begin Patch
*** Update File: src.txt
*** Move to: dst.txt
@@
-line
+line2
*** End Patch".


Definition testDirectory : gmap str str :=
  {[ lit "/tmp/src.txt" := lit "line
";
     lit "/tmp/notfound.txt" := lit "different content
" ]}.

(** Two one-chunk updates without a move, and a directory with their
    files. *)
Definition barPatch : str := lit "*** Begin Patch
*** Update File: foo.txt
@@
-bar
+baz
*** End Patch".

Definition twoAsPatch : str := lit "*** Begin Patch
*** Update File: aa.txt
@@
-a
+b
*** End Patch".

Definition workDirectory : gmap str str :=
  {[ lit "/tmp/foo.txt" := lit "foo
bar
";
     lit "/tmp/aa.txt" := lit "a
a
" ]}.

(** The lines of a file after the span of [chunk]'s pattern at [m] has been
    replaced by the chunk's new lines. *)
Definition editedAt (lines : list str) (chunk : UpdateFileChunk) (m : nat)
    : list str :=
  splice lines m (length (patternOf chunk)) (normalize chunk).2.

(** What [applyPatch] returns for a one-hunk update of [path] in place once
    the new text is computed: the outcome of the write. *)
Definition writtenBack {FS E : Type} `{!FileSystem FS E} (cwd path text : str)
    (fs : FS) : (rejection E + list str) * FS :=
  match writeFile (resolve cwd path) text fs with
  | (inr _, fs') => (inr [lit "M " ++ path], fs')
  | (inl e, fs') => (inl (FsFailed e), fs')
  end.

(** * Properties *)

(** ** The Line Matcher *)

Section LineMatcher.

Context (R : str -> str -> Prop).

Lemma MatchAt_nil (lines : list str) (i : nat) : MatchAt R lines [] i.
Proof. intros j p Hj. by rewrite lookup_nil in Hj. Qed.

Lemma MatchAt_cons (lines : list str) (p : str) (ps : list str) (i : nat) :
  MatchAt R lines (p :: ps) i <->
  (exists l, lines !! i = Some l /\ R l p) /\ MatchAt R lines ps (S i).
Proof.
  split.
  - intros H. split.
    + destruct (H 0 p eq_refl) as (l & Hl & HR).
      rewrite Nat.add_0_r in Hl. eauto.
    + intros j q Hj. destruct (H (S j) q Hj) as (l & Hl & HR).
      rewrite Nat.add_succ_r in Hl. eauto.
  - intros [(l & Hl & HR) Hps] [|j] q Hj; simpl in Hj.
    + injection Hj as <-. rewrite Nat.add_0_r. eauto.
    + rewrite Nat.add_succ_r. exact (Hps j q Hj).
Qed.

(** A non-empty pattern only matches where it fits. *)
Lemma MatchAt_fits (lines pattern : list str) (i : nat) :
  pattern <> [] -> MatchAt R lines pattern i ->
  i + length pattern <= length lines.
Proof.
  intros Hne H.
  destruct (last pattern) as [p|] eqn:Hlast.
  - rewrite last_lookup in Hlast.
    destruct (H _ _ Hlast) as (l & Hl & _).
    apply lookup_lt_Some in Hl.
    destruct pattern; [done | simpl in *; lia].
  - apply last_None in Hlast. done.
Qed.

End LineMatcher.

Lemma exactFrom_true (lines pattern : list str) (k : nat) :
  exactFrom lines k pattern = true <-> ExactAt lines pattern k.
Proof.
  unfold ExactAt. revert k.
  induction pattern as [|p ps IH]; intros k; simpl.
  - split; [intros _; apply MatchAt_nil | done].
  - rewrite MatchAt_cons, <- IH.
    destruct (lines !! k) as [l|]; [case_decide as Hl |].
    + split; [intros H; split; eauto | intros [_ H]; exact H].
    + split; [discriminate | intros [(l' & [= <-] & Hp) _]; done].
    + split; [discriminate | intros [(l' & Hl & _) _]; discriminate].
Qed.

Lemma trimmedFrom_true (lines pattern : list str) (k : nat) :
  trimmedFrom lines k pattern = true <-> TrimmedAt lines pattern k.
Proof.
  unfold TrimmedAt. revert k.
  induction pattern as [|p ps IH]; intros k; simpl.
  - split; [intros _; apply MatchAt_nil | done].
  - rewrite MatchAt_cons, <- IH.
    destruct (lines !! k) as [l|]; [case_decide as Hl |].
    + split; [intros H; split; eauto | intros [_ H]; exact H].
    + split; [discriminate | intros [(l' & [= <-] & Hp) _]; done].
    + split; [discriminate | intros [(l' & Hl & _) _]; discriminate].
Qed.

(** An exact match is a trimmed match as well, so "exact or trimmed" at a
    position is decided by the trimmed pass alone; the source tries the
    exact pass first all the same. *)
Lemma ExactAt_TrimmedAt (lines pattern : list str) (i : nat) :
  ExactAt lines pattern i -> TrimmedAt lines pattern i.
Proof.
  intros H j p Hj. destruct (H j p Hj) as (l & Hl & ->). eauto.
Qed.

Lemma FoundAt_tests (lines pattern : list str) (i : nat) :
  FoundAt lines pattern i <->
  exactFrom lines i pattern = true \/ trimmedFrom lines i pattern = true.
Proof. unfold FoundAt. by rewrite exactFrom_true, trimmedFrom_true. Qed.

(** The scan returns the first position of its range that passes a test. *)
Lemma seekLoop_spec (lines pattern : list str) (n i : nat) :
  match seekLoop lines pattern i n with
  | Some r =>
      i <= r < i + n /\ FoundAt lines pattern r /\
      forall k, i <= k < r -> ~ FoundAt lines pattern k
  | None => forall k, i <= k < i + n -> ~ FoundAt lines pattern k
  end.
Proof.
  revert i. induction n as [|n IH]; intros i; simpl.
  - intros k Hk. lia.
  - destruct (exactFrom lines i pattern) eqn:He.
    { split; [lia|]. split; [apply FoundAt_tests; auto | intros k Hk; lia]. }
    destruct (trimmedFrom lines i pattern) eqn:Ht.
    { split; [lia|]. split; [apply FoundAt_tests; auto | intros k Hk; lia]. }
    assert (Hi : ~ FoundAt lines pattern i).
    { rewrite FoundAt_tests, He, Ht. intros [|]; discriminate. }
    specialize (IH (S i)).
    destruct (seekLoop lines pattern (S i) n) as [r|].
    + destruct IH as (Hr & Hf & Hmin). split; [lia|]. split; [done|].
      intros k Hk. destruct (decide (k = i)) as [->|]; [done|].
      apply Hmin. lia.
    + intros k Hk. destruct (decide (k = i)) as [->|]; [done|].
      apply IH. lia.
Qed.

Lemma FoundAt_fits (lines pattern : list str) (i : nat) :
  pattern <> [] -> FoundAt lines pattern i ->
  i + length pattern <= length lines.
Proof. intros Hne [H|H]; by eapply MatchAt_fits. Qed.

Lemma seekSequence_nil (lines : list str) (start : nat) :
  seekSequence lines [] start = Some start.
Proof. reflexivity. Qed.

(** The result of a search for a non-empty pattern. *)
Lemma seekSequence_cons_spec (lines pattern : list str) (start : nat) :
  pattern <> [] ->
  match seekSequence lines pattern start with
  | Some i =>
      start <= i /\ i + length pattern <= length lines /\
      FoundAt lines pattern i /\
      forall k, start <= k < i -> ~ FoundAt lines pattern k
  | None => forall k, start <= k -> ~ FoundAt lines pattern k
  end.
Proof.
  intros Hne. unfold seekSequence.
  destruct (decide (length pattern = 0)) as [H0|H0].
  { by destruct pattern. }
  destruct (decide (length lines < length pattern)) as [Hlong|Hfit].
  { intros k _ Hk. apply FoundAt_fits in Hk; [lia | done]. }
  pose proof (seekLoop_spec lines pattern
                (S (length lines - length pattern) - start) start) as H.
  destruct (seekLoop lines pattern start _) as [r|].
  - destruct H as (Hr & Hf & Hmin).
    split; [lia|]. split; [by apply FoundAt_fits|]. done.
  - intros k Hk Hf. apply (H k); [|done].
    apply FoundAt_fits in Hf; [lia | done].
Qed.

(** C1. [seekSequence lines pattern start] is [start] for the empty pattern;
    it is not-found when the pattern is longer than what is left of [lines]
    from [start] on; otherwise it is the least [i >= start] at which every
    pattern line equals the line facing it, exactly or after trimming both,
    and not-found when there is no such position. *)
Theorem seekSequence_spec (lines pattern : list str) (start : nat) :
  (pattern = [] -> seekSequence lines pattern start = Some start) /\
  (length lines - start < length pattern ->
   seekSequence lines pattern start = None) /\
  (pattern <> [] -> length pattern <= length lines - start ->
   match seekSequence lines pattern start with
   | Some i =>
       start <= i /\ FoundAt lines pattern i /\
       forall k, start <= k < i -> ~ FoundAt lines pattern k
   | None => forall k, start <= k -> ~ FoundAt lines pattern k
   end).
Proof.
  split; [intros ->; apply seekSequence_nil|]. split.
  - intros Hlong.
    assert (Hne : pattern <> []) by (intros ->; simpl in Hlong; lia).
    pose proof (seekSequence_cons_spec lines pattern start Hne) as H.
    destruct (seekSequence lines pattern start) as [i|]; [|done].
    destruct H as (? & ? & _). lia.
  - intros Hne _.
    pose proof (seekSequence_cons_spec lines pattern start Hne) as H.
    destruct (seekSequence lines pattern start) as [i|]; [|done].
    destruct H as (? & _ & ? & ?). done.
Qed.

(** C1 at a haystack whose second line matches only after trimming. *)
Lemma seekSequence_spec_witness :
  let lines := [lit "a"; lit "  b "; lit "c"] in
  let pattern := [lit "b"] in
  (pattern <> [] /\ length pattern <= length lines - 0) /\
  match seekSequence lines pattern 0 with
  | Some i =>
      0 <= i /\ FoundAt lines pattern i /\
      forall k, 0 <= k < i -> ~ FoundAt lines pattern k
  | None => forall k, 0 <= k -> ~ FoundAt lines pattern k
  end.
Proof.
  intros lines pattern.
  assert (Hne : pattern <> []) by discriminate.
  assert (Hfit : length pattern <= length lines - 0) by (simpl; lia).
  split; [done|].
  exact (proj2 (proj2 (seekSequence_spec lines pattern 0)) Hne Hfit).
Defined.

(** ** The Envelope Parser *)

Lemma ValidEnvelope_parsePatch (fuel : nat) (patch : str) :
  ValidEnvelope (split (trim patch)) ->
  parsePatch fuel patch = hunkLoop fuel (split (trim patch)) 1 [].
Proof.
  intros (Hlen & Hfirst & Hlast). unfold parsePatch.
  destruct (decide (length (split (trim patch)) < 2)); [lia|].
  destruct (decide (split (trim patch) !! 0 <> Some BEGIN_PATCH_MARKER)); [done|].
  destruct (decide (last (split (trim patch)) <> Some END_PATCH_MARKER)); done.
Qed.

(** C9. [parsePatch] throws a status-400 error, whatever the fuel, when the
    trimmed input has fewer than two lines, when its first line is not the
    begin marker and when its last line is not the end marker; on an envelope
    that is exactly the two markers it returns the empty hunk list. *)
Theorem parsePatch_envelope (fuel : nat) (patch : str) :
  let lines := split (trim patch) in
  (length lines < 2 \/ lines !! 0 <> Some BEGIN_PATCH_MARKER \/
   last lines <> Some END_PATCH_MARKER ->
   exists msg,
     parsePatch fuel patch = Some (fail msg) /\
     msg ∈ [lit "Patch must have at least begin and end markers";
            lit "The first line of the patch must be '*** Begin Patch'";
            lit "The last line of the patch must be '*** End Patch'"]) /\
  (lines = [BEGIN_PATCH_MARKER; END_PATCH_MARKER] ->
   parsePatch fuel patch = Some (Ok [])).
Proof.
  intros lines. split.
  - intros Hbad. unfold parsePatch. fold lines.
    destruct (decide (length lines < 2)).
    { eexists. split; [done|]. repeat constructor. }
    destruct (decide (lines !! 0 <> Some BEGIN_PATCH_MARKER)).
    { eexists. split; [done|]. repeat constructor. }
    destruct (decide (last lines <> Some END_PATCH_MARKER)).
    { eexists. split; [done|]. repeat constructor. }
    tauto.
  - intros Hlines. rewrite ValidEnvelope_parsePatch.
    + fold lines. rewrite Hlines. by destruct fuel.
    + fold lines. rewrite Hlines. repeat split. simpl. lia.
Qed.

(** C9 on the input ["bad"] of the test-suite and on the empty envelope. *)
Lemma parsePatch_envelope_witness :
  (exists msg,
     parsePatch 0 (lit "bad") = Some (fail msg) /\
     msg ∈ [lit "Patch must have at least begin and end markers";
            lit "The first line of the patch must be '*** Begin Patch'";
            lit "The last line of the patch must be '*** End Patch'"]) /\
  parsePatch 0 (lit "  *** Begin Patch
*** End Patch
") = Some (Ok []).
Proof.
  split.
  - apply (proj1 (parsePatch_envelope 0 (lit "bad"))). left. vm_compute. lia.
  - apply (proj2 (parsePatch_envelope 0 _)). reflexivity.
Defined.

(** ** Fuel *)

Lemma chunkLoop_unfold (fuel : nat) (lines : list str) (i : nat)
    (chunks : list UpdateFileChunk) :
  chunkLoop fuel lines i chunks =
  match lines !! i with
  | None => Some (Ok (chunks, i))
  | Some line =>
      if startsWith line (lit "***") then Some (Ok (chunks, i))
      else
        match fuel with
        | 0 => None
        | S fuel' =>
            if decide (trim line = []) then chunkLoop fuel' lines (S i) chunks
            else
              match parseUpdateFileChunk lines i with
              | Throw e => Some (Throw e)
              | Ok (chunk, consumed) =>
                  chunkLoop fuel' lines (i + consumed) (chunks ++ [chunk])
              end
        end
  end.
Proof. by destruct fuel. Qed.

Lemma hunkLoop_unfold (fuel : nat) (lines : list str) (i : nat) (hunks : list Hunk) :
  hunkLoop fuel lines i hunks =
  if decide (i < length lines - 1) then
    match fuel with
    | 0 => None
    | S fuel' =>
        match parseOneHunk fuel' lines i with
        | None => None
        | Some (Throw e) => Some (Throw e)
        | Some (Ok (hunk, consumed)) =>
            hunkLoop fuel' lines (i + consumed) (hunks ++ [hunk])
        end
    end
  else Some (Ok hunks).
Proof. by destruct fuel. Qed.

(** A loop that has returned returns the same with more fuel. *)
Lemma chunkLoop_mono (fuel fuel' : nat) (lines : list str) (i : nat)
    (chunks : list UpdateFileChunk) r :
  chunkLoop fuel lines i chunks = Some r -> fuel <= fuel' ->
  chunkLoop fuel' lines i chunks = Some r.
Proof.
  revert fuel' i chunks.
  induction fuel as [|fuel IH]; intros fuel' i chunks H Hle;
    rewrite chunkLoop_unfold in H; rewrite chunkLoop_unfold;
    destruct (lines !! i) as [line|]; try done;
    destruct (startsWith line (lit "***")); try done.
  destruct fuel' as [|fuel']; [lia|].
  destruct (decide (trim line = [])); [apply IH; [done | lia]|].
  destruct (parseUpdateFileChunk lines i) as [[chunk consumed]|e]; [|done].
  apply IH; [done | lia].
Qed.

Lemma parseOneHunk_mono (fuel fuel' : nat) (lines : list str) (i : nat) r :
  parseOneHunk fuel lines i = Some r -> fuel <= fuel' ->
  parseOneHunk fuel' lines i = Some r.
Proof.
  unfold parseOneHunk. intros H Hle.
  destruct (lines !! i) as [raw|]; [|done].
  destruct (startsWith (trim raw) ADD_FILE_MARKER); [done|].
  destruct (startsWith (trim raw) DELETE_FILE_MARKER); [done|].
  destruct (startsWith (trim raw) UPDATE_FILE_MARKER); [|done].
  destruct (match lines !! S i with
            | Some next => _
            | None => _
            end) as [movePath j].
  destruct (chunkLoop fuel lines j []) as [r'|] eqn:Hloop; [|done].
  by rewrite (chunkLoop_mono _ _ _ _ _ _ Hloop Hle).
Qed.

Lemma hunkLoop_mono (fuel fuel' : nat) (lines : list str) (i : nat)
    (hunks : list Hunk) r :
  hunkLoop fuel lines i hunks = Some r -> fuel <= fuel' ->
  hunkLoop fuel' lines i hunks = Some r.
Proof.
  revert fuel' i hunks.
  induction fuel as [|fuel IH]; intros fuel' i hunks H Hle;
    rewrite hunkLoop_unfold in H; rewrite hunkLoop_unfold;
    destruct (decide (i < length lines - 1)); try done.
  destruct fuel' as [|fuel']; [lia|].
  destruct (parseOneHunk fuel lines i) as [r'|] eqn:Hhunk; [|done].
  rewrite (parseOneHunk_mono _ fuel' _ _ _ Hhunk) by lia.
  destruct r' as [[hunk consumed]|e]; [|done].
  apply IH; [done | lia].
Qed.

(** What the loop returns from a hunk position, [parsePatch]'s loop returns
    from the start, given enough fuel. *)
Lemma HunkPosition_reach (lines : list str) (i : nat) (hunks : list Hunk) :
  HunkPosition lines i hunks ->
  forall fuel r, hunkLoop fuel lines i hunks = Some r ->
  exists fuel0, forall fuel', fuel0 <= fuel' -> hunkLoop fuel' lines 1 [] = Some r.
Proof.
  induction 1 as [|i hunks fuelh hunk consumed Hpos IH Hi Hhunk]; intros fuel r Hr.
  - exists fuel. intros fuel' Hle. by eapply hunkLoop_mono.
  - apply (IH (S (fuel `max` fuelh))).
    rewrite hunkLoop_unfold. destruct (decide (i < length lines - 1)); [|done].
    rewrite (parseOneHunk_mono _ (fuel `max` fuelh) _ _ _ Hhunk) by lia.
    eapply hunkLoop_mono; [done | lia].
Qed.

(** ** The Hunk Parser *)

Lemma parseOneHunk_invalid (fuel : nat) (lines : list str) (i : nat) (raw : str) :
  lines !! i = Some raw ->
  startsWith (trim raw) ADD_FILE_MARKER = false ->
  startsWith (trim raw) DELETE_FILE_MARKER = false ->
  startsWith (trim raw) UPDATE_FILE_MARKER = false ->
  parseOneHunk fuel lines i = Some (fail (invalidHeader (trim raw))).
Proof.
  intros Hraw Hadd Hdel Hupd. unfold parseOneHunk.
  by rewrite Hraw, Hadd, Hdel, Hupd.
Qed.

(** C7, as the code has it.  The header tests run on the trimmed line: when
    the line at a hunk position, trimmed, starts with none of the three
    header markers, [parsePatch] (given the fuel to get there) throws a
    status-400 error whose message quotes the trimmed line. *)
Theorem parsePatch_invalid_header (patch : str) (i : nat) (hunks : list Hunk)
    (raw : str) :
  let lines := split (trim patch) in
  ValidEnvelope lines ->
  HunkPosition lines i hunks ->
  i < length lines - 1 ->
  lines !! i = Some raw ->
  startsWith (trim raw) ADD_FILE_MARKER = false ->
  startsWith (trim raw) DELETE_FILE_MARKER = false ->
  startsWith (trim raw) UPDATE_FILE_MARKER = false ->
  exists fuel0, forall fuel, fuel0 <= fuel ->
    parsePatch fuel patch = Some (fail (invalidHeader (trim raw))).
Proof.
  intros lines Henv Hpos Hi Hraw Hadd Hdel Hupd.
  destruct (HunkPosition_reach lines i hunks Hpos 1
              (fail (invalidHeader (trim raw)))) as [fuel0 Hfuel0].
  { rewrite hunkLoop_unfold. destruct (decide (i < length lines - 1)); [|done].
    by rewrite (parseOneHunk_invalid 0 lines i raw). }
  exists fuel0. intros fuel Hle.
  rewrite ValidEnvelope_parsePatch by done. by apply Hfuel0.
Qed.

(** C7 on the patch of the test-suite, whose only hunk line is
    [*** Invalid Header: test.py]. *)
Lemma parsePatch_invalid_header_witness :
  exists fuel0, forall fuel, fuel0 <= fuel ->
    parsePatch fuel (lit "*** Begin Patch
*** Invalid Header: test.py
*** End Patch")
    = Some (fail (invalidHeader (lit "*** Invalid Header: test.py"))).
Proof.
  apply (parsePatch_invalid_header _ 1 [] (lit "*** Invalid Header: test.py")).
  - repeat split. vm_compute. lia.
  - constructor.
  - vm_compute. lia.
  - reflexivity.
  - reflexivity.
  - reflexivity.
  - reflexivity.
Defined.

(** C7 as stated fails.  The line [  *** Delete File: a] begins with blanks,
    not with a header marker, and is parsed as a delete hunk; and the error
    for [  bogus] quotes [bogus], not the line as written. *)
Lemma indented_header_accepted :
  let line := lit "  *** Delete File: a" in
  split (trim indentedHeaderPatch) !! 1 = Some line /\
  startsWith line ADD_FILE_MARKER = false /\
  startsWith line DELETE_FILE_MARKER = false /\
  startsWith line UPDATE_FILE_MARKER = false /\
  parsePatch 1 indentedHeaderPatch = Some (Ok [DeleteFile (lit "a")]) /\
  split (trim indentedBogusPatch) !! 1 = Some (lit "  bogus") /\
  parsePatch 1 indentedBogusPatch = Some (fail (invalidHeader (lit "bogus"))) /\
  invalidHeader (lit "bogus") <> invalidHeader (lit "  bogus").
Proof. repeat split. discriminate. Qed.

(** ** The Chunk Parser *)






(** ** Termination of [parsePatch] *)

Lemma gluedContext_chunkLoop (fuel : nat) (chunks : list UpdateFileChunk) :
  chunkLoop fuel (split (trim gluedContextPatch)) 2 chunks = None.
Proof.
  revert chunks. induction fuel as [|fuel IH]; intros chunks; [done|].
  rewrite chunkLoop_unfold. exact (IH _).
Qed.

(** C10 fails on the code.  On a body line that starts with [@@] without
    being a context marker the chunk parser returns an empty chunk and
    consumed 0, the chunk-collection loop stays at the same index, and
    [parsePatch] returns for no amount of fuel. *)
Theorem parsePatch_glued_context_diverges :
  split (trim gluedContextPatch) !! 2 = Some (lit "@@foo") /\
  parseUpdateFileChunk (split (trim gluedContextPatch)) 2 = Ok (emptyChunk None, 0) /\
  forall fuel, parsePatch fuel gluedContextPatch = None.
Proof.
  split; [done|]. split; [done|]. intros fuel.
  rewrite ValidEnvelope_parsePatch by (repeat split; vm_compute; lia).
  rewrite hunkLoop_unfold.
  destruct (decide (1 < length (split (trim gluedContextPatch)) - 1)) as [_|Hn].
  - destruct fuel as [|fuel]; [done|].
    unfold parseOneHunk.
    change (split (trim gluedContextPatch) !! 1) with (Some (lit "*** Update File: a")).
    change (trim (lit "*** Update File: a")) with (lit "*** Update File: a").
    change (split (trim gluedContextPatch) !! 2) with (Some (lit "@@foo")).
    simpl. by rewrite gluedContext_chunkLoop.
  - exfalso. apply Hn. vm_compute. lia.
Qed.

(** ** The Applier: one chunk *)

Lemma patternOf_nil (chunk : UpdateFileChunk) :
  oldLines chunk = [] -> patternOf chunk = [].
Proof.
  unfold patternOf, normalize. intros ->.
  by destruct (decide (last (@nil str) = Some [] /\ isEndOfFile chunk = false)).
Qed.

Lemma processChunk_seek (lines : list str) (chunk : UpdateFileChunk)
    (searchStart : nat) :
  patternOf chunk <> [] ->
  processChunk lines chunk searchStart =
  match seekSequence lines (patternOf chunk)
          (seekContext lines chunk searchStart) with
  | None => Throw (matchError (patternOf chunk))
  | Some matchIndex =>
      Ok ({| rStart := matchIndex; rLength := length (patternOf chunk);
             rNewLines := (normalize chunk).2 |},
          matchIndex + length (patternOf chunk))
  end.
Proof.
  intros Hne. unfold processChunk.
  destruct (decide (length (oldLines chunk) = 0)) as [H0|_].
  { apply nil_length_inv, patternOf_nil in H0. done. }
  unfold patternOf. by destruct (normalize chunk).
Qed.

Lemma processChunk_pure_addition (lines : list str) (chunk : UpdateFileChunk)
    (searchStart : nat) :
  oldLines chunk = [] ->
  processChunk lines chunk searchStart =
  Ok ({| rStart := length lines; rLength := 0; rNewLines := newLines chunk |},
      seekContext lines chunk searchStart).
Proof. unfold processChunk. by intros ->. Qed.

Lemma chunksLoop_app (lines : list str) (pre post : list UpdateFileChunk)
    (searchStart : nat) (replacements : list Replacement) :
  chunksLoop lines (pre ++ post) searchStart replacements =
  '(replacements', searchStart') ← chunksLoop lines pre searchStart replacements;
  chunksLoop lines post searchStart' replacements'.
Proof.
  revert searchStart replacements.
  induction pre as [|chunk pre IH]; intros searchStart replacements; [done|].
  simpl. destruct (processChunk lines chunk searchStart) as [[r s]|e]; [|done].
  apply IH.
Qed.

(** C4. Take a chunk whose pattern, after normalization, is not empty, at
    the point where the chunks before it have been processed.  If the Line
    Matcher finds the pattern nowhere from the cursor on, [applyUpdateChunks]
    throws the error [Failed to find expected lines:], a newline, and the
    pattern joined by newlines; if it finds the pattern, the chunk queues its
    replacement and the loop goes on to the remaining chunks. *)
Theorem applyUpdateChunks_match_error (content : str)
    (pre : list UpdateFileChunk) (chunk : UpdateFileChunk)
    (rest : list UpdateFileChunk) (replacements : list Replacement)
    (searchStart : nat) :
  let lines := fileLines content in
  let pattern := patternOf chunk in
  let cursor := seekContext lines chunk searchStart in
  chunksLoop lines pre 0 [] = Ok (replacements, searchStart) ->
  pattern <> [] ->
  (seekSequence lines pattern cursor = None ->
   applyUpdateChunks content (pre ++ chunk :: rest) = Throw (matchError pattern) /\
   matchError pattern =
     Thrown (createError (lit "Failed to find expected lines:"
                            ++ newline :: join pattern) 400)) /\
  (forall matchIndex, seekSequence lines pattern cursor = Some matchIndex ->
   chunksLoop lines (pre ++ chunk :: rest) 0 [] =
   chunksLoop lines rest (matchIndex + length pattern)
     (replacements ++ [{| rStart := matchIndex; rLength := length pattern;
                          rNewLines := (normalize chunk).2 |}])).
Proof.
  intros lines pattern cursor Hpre Hne. split.
  - intros Hnone. split; [|done].
    unfold applyUpdateChunks, editedLines. fold lines.
    rewrite chunksLoop_app, Hpre. simpl.
    rewrite processChunk_seek by done. fold pattern cursor. by rewrite Hnone.
  - intros matchIndex Hsome.
    rewrite chunksLoop_app, Hpre. simpl.
    rewrite processChunk_seek by done. fold pattern cursor. by rewrite Hsome.
Qed.

(** C4 on the test-suite's file [different content], searched for
    [nonexistent line]. *)
Lemma applyUpdateChunks_match_error_witness :
  let chunk := {| changeContext := None; oldLines := [lit "nonexistent line"];
                  newLines := [lit "replacement"]; isEndOfFile := false |} in
  applyUpdateChunks (lit "different content
") ([] ++ chunk :: []) = Throw (matchError [lit "nonexistent line"]).
Proof.
  intros chunk.
  refine (proj1 (proj1 (applyUpdateChunks_match_error
                          (lit "different content
") [] chunk [] [] 0 eq_refl _) eq_refl)).
  discriminate.
Defined.

(** ** The search cursor *)

Lemma seekContext_ge (lines : list str) (chunk : UpdateFileChunk) (searchStart : nat) :
  searchStart <= seekContext lines chunk searchStart.
Proof.
  unfold seekContext.
  destruct (changeContext chunk) as [ctx|]; [|done].
  destruct (decide (ctx = [])); [done|].
  pose proof (seekSequence_cons_spec lines [ctx] searchStart) as H.
  destruct (seekSequence lines [ctx] searchStart) as [i|]; [|done].
  destruct H as (Hle & _); [done | lia].
Qed.

Lemma processChunk_cursor (lines : list str) (chunk : UpdateFileChunk)
    (searchStart searchStart' : nat) (r : Replacement) :
  processChunk lines chunk searchStart = Ok (r, searchStart') ->
  seekContext lines chunk searchStart <= searchStart'.
Proof.
  unfold processChunk.
  destruct (decide (length (oldLines chunk) = 0)); [by intros [= _ <-]|].
  destruct (normalize chunk) as [pattern new].
  destruct (decide (pattern = [])) as [->|Hne].
  { rewrite seekSequence_nil. intros [= _ <-]. lia. }
  pose proof (seekSequence_cons_spec lines pattern
                (seekContext lines chunk searchStart) Hne) as H.
  destruct (seekSequence lines pattern _) as [i|]; [|done].
  intros [= _ <-]. lia.
Qed.

Lemma chunksLoop_cursor (lines : list str) (chunks : list UpdateFileChunk)
    (searchStart searchStart' : nat) (replacements replacements' : list Replacement) :
  chunksLoop lines chunks searchStart replacements = Ok (replacements', searchStart') ->
  searchStart <= searchStart'.
Proof.
  revert searchStart replacements.
  induction chunks as [|chunk chunks IH]; intros searchStart replacements; simpl.
  - by intros [= _ <-].
  - destruct (processChunk lines chunk searchStart) as [[r s]|e] eqn:Hstep; [|done].
    intros Hrest. apply IH in Hrest. apply processChunk_cursor in Hstep.
    pose proof (seekContext_ge lines chunk searchStart). lia.
Qed.

(** C6, as the code has it.  The cursor never moves back, neither within a
    chunk nor over any run of chunks.  The hint is searched only when it is
    a non-empty string: found at [i], it moves the cursor to [i + 1]; missed,
    absent or empty, it leaves the cursor where it was, and the step has no
    way to throw.  A pattern matched at [m] leaves the cursor right after
    the matched span. *)
Theorem cursor_only_advances (lines : list str) (chunk : UpdateFileChunk)
    (searchStart : nat) :
  let cursor := seekContext lines chunk searchStart in
  searchStart <= cursor /\
  (forall r searchStart',
     processChunk lines chunk searchStart = Ok (r, searchStart') ->
     cursor <= searchStart') /\
  (forall chunks replacements replacements' searchStart',
     chunksLoop lines chunks searchStart replacements
       = Ok (replacements', searchStart') ->
     searchStart <= searchStart') /\
  (forall ctx i,
     changeContext chunk = Some ctx -> ctx <> [] ->
     seekSequence lines [ctx] searchStart = Some i -> cursor = i + 1) /\
  (forall ctx,
     changeContext chunk = Some ctx ->
     seekSequence lines [ctx] searchStart = None -> cursor = searchStart) /\
  (changeContext chunk = None \/ changeContext chunk = Some [] ->
   cursor = searchStart) /\
  (forall m,
     oldLines chunk <> [] ->
     seekSequence lines (patternOf chunk) cursor = Some m ->
     exists r, processChunk lines chunk searchStart
               = Ok (r, m + length (patternOf chunk))).
Proof.
  intros cursor. split; [apply seekContext_ge|].
  split; [intros r s'; apply processChunk_cursor|].
  split; [intros chunks rs rs' s'; apply chunksLoop_cursor|].
  split; [|split; [|split]].
  - intros ctx i Hctx Hne Hseek. unfold cursor, seekContext.
    rewrite Hctx, Hseek. by destruct (decide (ctx = [])).
  - intros ctx Hctx Hseek. unfold cursor, seekContext.
    rewrite Hctx, Hseek. by destruct (decide (ctx = [])).
  - intros [Hctx|Hctx]; unfold cursor, seekContext; by rewrite Hctx.
  - intros m Hold Hseek. unfold processChunk. fold cursor.
    destruct (decide (length (oldLines chunk) = 0)) as [H0|_].
    { by apply nil_length_inv in H0. }
    unfold patternOf in *. destruct (normalize chunk) as [pattern new].
    simpl in *. rewrite Hseek. by eexists.
Qed.

(** C6 on the README's kind of update: the hint [foo] is found at 0 and
    [bar] is then matched at 1. *)
Lemma cursor_only_advances_witness :
  let lines := [lit "foo"; lit "bar"] in
  let chunk := {| changeContext := Some (lit "foo"); oldLines := [lit "bar"];
                  newLines := [lit "baz"]; isEndOfFile := false |} in
  seekContext lines chunk 0 = 0 + 1 /\
  exists r, processChunk lines chunk 0 = Ok (r, 1 + length (patternOf chunk)).
Proof.
  intros lines chunk.
  pose proof (cursor_only_advances lines chunk 0) as (_ & _ & _ & Hhint & _ & _ & Hmatch).
  split.
  - apply (Hhint (lit "foo") 0); [reflexivity | discriminate | reflexivity].
  - apply (Hmatch 1); [discriminate | reflexivity].
Defined.

(** C6 as stated fails for the empty hint.  The chunk parser reads the
    header [@@ ] as the hint [''], the Line Matcher finds that hint at
    index 1, and the cursor stays at 0 instead of moving to 2: the chunk then
    replaces the [b] at index 0, not the one after the hint. *)
Lemma empty_hint_not_searched :
  parseUpdateFileChunk [lit "@@ "; lit "-b"; lit "+c"] 0 = Ok (emptyHintChunk, 3) /\
  changeContext emptyHintChunk = Some [] /\
  seekSequence blankSecondLine [[]] 0 = Some 1 /\
  seekContext blankSecondLine emptyHintChunk 0 = 0 /\
  seekContext blankSecondLine emptyHintChunk 0 <> 1 + 1 /\
  processChunk blankSecondLine emptyHintChunk 0
    = Ok ({| rStart := 0; rLength := 1; rNewLines := [lit "c"] |}, 1) /\
  seekSequence blankSecondLine (patternOf emptyHintChunk) (1 + 1) = Some 2.
Proof. repeat split. discriminate. Qed.

(** ** The written text *)

Lemma join_snoc (l : list str) (x : str) :
  l <> [] -> join (l ++ [x]) = join l ++ newline :: x.
Proof.
  induction l as [|a l IH]; [done|]. intros _.
  destruct l as [|b l]; [done|].
  change (join ((a :: b :: l) ++ [x]))
    with (a ++ newline :: join ((b :: l) ++ [x])).
  rewrite IH by done.
  change (join (a :: b :: l)) with (a ++ newline :: join (b :: l)).
  by rewrite <- app_assoc.
Qed.

(** The joined text ends with the last line, and what precedes that line
    is nothing or ends with a newline. *)
Lemma join_last (l : list str) (x : str) :
  last l = Some x ->
  exists pre, join l = pre ++ x /\ (pre = [] \/ last pre = Some newline).
Proof.
  intros Hlast. apply last_Some in Hlast as [l' ->].
  destruct (decide (l' = [])) as [->|Hne].
  - exists []. auto.
  - exists (join l' ++ [newline]). rewrite join_snoc by done.
    rewrite <- app_assoc. split; [done|]. right. apply last_snoc.
Qed.

Lemma serialize_cases (buffer : list str) :
  (buffer = [] -> serialize buffer = []) /\
  (last buffer = Some [] -> serialize buffer = join buffer) /\
  (forall l, last buffer = Some l -> l <> [] ->
   serialize buffer = join buffer ++ [newline]).
Proof.
  unfold serialize, ensureTrailing. split; [|split].
  - intros ->. done.
  - intros Hlast.
    destruct (decide (0 < length buffer /\ last buffer <> Some [])) as [[_ H]|_]; done.
  - intros l Hlast Hl.
    destruct (decide (0 < length buffer /\ last buffer <> Some [])) as [_|H].
    + apply join_snoc. by intros ->.
    + exfalso. apply H. split.
      * destruct buffer; [done | simpl; lia].
      * rewrite Hlast. by intros [= ->].
Qed.

(** C3, as the code has it.  The text written by a successful update is
    empty or ends with a newline.  The step before the join appends one
    empty element exactly when the buffer is not empty and its last line is
    not the empty string; the text is then the joined lines and one newline
    after the last line.  An empty buffer is written as the empty text, and a
    buffer whose last element is already empty is joined as it is. *)
Theorem written_text_end (content : str) (chunks : list UpdateFileChunk) (out : str) :
  applyUpdateChunks content chunks = Ok out ->
  exists buffer,
    editedLines content chunks = Ok buffer /\
    (out = [] \/ last out = Some newline) /\
    (forall l, last buffer = Some l -> l <> [] ->
     out = join buffer ++ [newline] /\ last (join buffer) = last l) /\
    (buffer = [] -> out = []) /\
    (last buffer = Some [] -> out = join buffer).
Proof.
  unfold applyUpdateChunks.
  destruct (editedLines content chunks) as [buffer|e]; [|done].
  simpl. intros [= <-]. exists buffer. split; [done|].
  destruct (serialize_cases buffer) as (Hnil & Hblank & Hline).
  assert (Hfull : forall l, last buffer = Some l -> l <> [] ->
            serialize buffer = join buffer ++ [newline] /\
            last (join buffer) = last l).
  { intros l Hlast Hl. split; [by eapply Hline|].
    destruct (join_last buffer l Hlast) as (pre & -> & _).
    apply last_Some in Hlast as [buffer' _].
    destruct l as [|c l] using rev_ind; [done|].
    by rewrite app_assoc, !last_snoc. }
  split; [|done].
  destruct (last buffer) as [l|] eqn:Hlast.
  - destruct (decide (l = [])) as [->|Hl].
    + rewrite Hblank by done.
      destruct (join_last buffer [] Hlast) as (pre & -> & Hpre).
      by rewrite app_nil_r.
    + right. destruct (Hfull l eq_refl Hl) as [-> _]. apply last_snoc.
  - left. apply Hnil. by apply last_None.
Qed.

(** C3 on the update of the test-suite: [foo], [bar] becomes [foo], [baz]. *)
Lemma written_text_end_witness :
  exists buffer,
    editedLines (lit "foo
bar
") [replaceBarByBaz] = Ok buffer /\
    (lit "foo
baz
" = [] \/ last (lit "foo
baz
") = Some newline) /\
    (forall l, last buffer = Some l -> l <> [] ->
     lit "foo
baz
" = join buffer ++ [newline] /\ last (join buffer) = last l) /\
    (buffer = [] -> lit "foo
baz
" = []) /\
    (last buffer = Some [] -> lit "foo
baz
" = join buffer).
Proof.
  apply (written_text_end (lit "foo
bar
") [replaceBarByBaz]). reflexivity.
Defined.

(** C3 as stated fails.  Removing the only line of a file writes the empty
    text, which ends without a newline; and a file that ends in blank lines
    keeps them, so the text written can end with more than one newline. *)
Lemma text_end_not_one_newline :
  applyUpdateChunks (lit "a
") [removeA] = Ok [] /\
  applyUpdateChunks (lit "a


") [replaceAbyB] = Ok (lit "b

").
Proof. split; reflexivity. Qed.

(** ** Applying an update twice *)

Lemma applyUpdateChunks_single (content : str) (chunk : UpdateFileChunk) :
  patternOf chunk <> [] ->
  applyUpdateChunks content [chunk] =
  match seekSequence (fileLines content) (patternOf chunk)
          (seekContext (fileLines content) chunk 0) with
  | Some m => Ok (serialize (editedAt (fileLines content) chunk m))
  | None => Throw (matchError (patternOf chunk))
  end.
Proof.
  intros Hne. unfold applyUpdateChunks, editedLines. simpl.
  rewrite processChunk_seek by done.
  by destruct (seekSequence _ _ _).
Qed.

Section SecondApplication.

Context {FS E : Type} `{!FileSystem FS E}.

Lemma applyPatch_single_update (fuel : nat) (patch cwd path : str)
    (movePath : option str) (chunks : list UpdateFileChunk) (fs fs0 : FS)
    (content : str) :
  parsePatch fuel patch = Some (Ok [UpdateFile path movePath chunks]) ->
  movePath = None \/ movePath = Some [] ->
  readFile (resolve cwd path) fs = (inr content, fs0) ->
  applyPatch fuel patch cwd fs =
  Some match applyUpdateChunks content chunks with
       | Ok text => writtenBack cwd path text fs0
       | Throw e => (inl (Raised e), fs0)
       end.
Proof.
  intros Hparse Hmove Hread. unfold applyPatch. rewrite Hparse. f_equal.
  unfold applyHunks, applyHunk, writtenBack, mbind, io_bind, mret, io_ret,
    await, throwing.
  rewrite Hread.
  destruct (applyUpdateChunks content chunks) as [text|e]; [|done].
  destruct Hmove as [-> | ->]; simpl;
    by destruct (writeFile (resolve cwd path) text fs0) as [[e|[]] fs1].
Qed.

(** C5, as the code has it.  Take a patch that is one update hunk without a
    move destination, with one chunk whose normalized pattern is not empty
    and is found at [m] in the file.  The first application replaces the
    span at [m] by the chunk's new lines and writes the text back.  When the
    second application reads that text back, it throws the match error
    exactly when no position from the cursor on holds the old pattern,
    exactly or trimmed, in the edited lines; when the pattern still occurs
    there, it finds it again and goes on to write. *)
Theorem second_application (fuel : nat) (patch cwd path : str)
    (movePath : option str) (chunk : UpdateFileChunk)
    (fs fs0 fs1 fs2 : FS) (content : str) (m : nat) :
  let lines := fileLines content in
  let pattern := patternOf chunk in
  let once := serialize (editedAt lines chunk m) in
  let lines' := fileLines once in
  let cursor' := seekContext lines' chunk 0 in
  parsePatch fuel patch = Some (Ok [UpdateFile path movePath [chunk]]) ->
  movePath = None \/ movePath = Some [] ->
  pattern <> [] ->
  readFile (resolve cwd path) fs = (inr content, fs0) ->
  seekSequence lines pattern (seekContext lines chunk 0) = Some m ->
  writeFile (resolve cwd path) once fs0 = (inr tt, fs1) ->
  readFile (resolve cwd path) fs1 = (inr once, fs2) ->
  applyPatch fuel patch cwd fs = Some (inr [lit "M " ++ path], fs1) /\
  (applyPatch fuel patch cwd fs1 = Some (inl (Raised (matchError pattern)), fs2)
   <-> forall k, cursor' <= k -> ~ FoundAt lines' pattern k) /\
  ((exists k, cursor' <= k /\ FoundAt lines' pattern k) ->
   exists m', seekSequence lines' pattern cursor' = Some m' /\
              applyPatch fuel patch cwd fs1 =
              Some (writtenBack cwd path (serialize (editedAt lines' chunk m')) fs2)).
Proof.
  intros lines pattern once lines' cursor' Hparse Hmove Hne Hread Hseek Hwrite
    Hback.
  split; [|split].
  - rewrite (applyPatch_single_update _ _ _ _ _ _ _ _ _ Hparse Hmove Hread).
    rewrite applyUpdateChunks_single by done. fold lines pattern.
    rewrite Hseek. fold once. unfold writtenBack. by rewrite Hwrite.
  - rewrite (applyPatch_single_update _ _ _ _ _ _ _ _ _ Hparse Hmove Hback).
    rewrite applyUpdateChunks_single by done. fold lines' pattern cursor'.
    pose proof (seekSequence_cons_spec lines' pattern cursor' Hne) as Hspec.
    destruct (seekSequence lines' pattern cursor') as [m'|].
    + destruct Hspec as (Hle & _ & Hfound & _). split.
      * unfold writtenBack.
        by destruct (writeFile _ _ fs2) as [[e|[]] fs3].
      * intros Hnone. by destruct (Hnone m' Hle).
    + split; [done|]. by intros _.
  - intros (k & Hle & Hfound).
    rewrite (applyPatch_single_update _ _ _ _ _ _ _ _ _ Hparse Hmove Hback).
    rewrite applyUpdateChunks_single by done. fold lines' pattern cursor'.
    pose proof (seekSequence_cons_spec lines' pattern cursor' Hne) as Hspec.
    destruct (seekSequence lines' pattern cursor') as [m'|].
    + by exists m'.
    + by destruct (Hspec k Hle).
Qed.

End SecondApplication.

(** C5 on the file [foo], [bar] of the in-memory filesystem: after [bar]
    has become [baz] the second application throws the match error. *)
Lemma second_application_witness :
  let written := <[lit "/tmp/foo.txt" := lit "foo
baz
"]> workDirectory in
  applyPatch 9 barPatch (lit "/tmp") workDirectory
    = Some (inr [lit "M foo.txt"], written) /\
  applyPatch 9 barPatch (lit "/tmp") written
    = Some (inl (Raised (matchError [lit "bar"])), written).
Proof.
  intros written.
  pose proof (second_application 9 barPatch (lit "/tmp") (lit "foo.txt") None
                replaceBarByBaz workDirectory workDirectory written written
                (lit "foo
bar
") 1) as H.
  destruct H as (Hfirst & Hsecond & _).
  - vm_compute. reflexivity.
  - by left.
  - discriminate.
  - vm_compute. reflexivity.
  - reflexivity.
  - vm_compute. reflexivity.
  - vm_compute. reflexivity.
  - split; [exact Hfirst|]. apply Hsecond.
    intros k _ Hfound. apply FoundAt_tests in Hfound.
    destruct k as [|[|k]]; vm_compute in Hfound; destruct Hfound; discriminate.
Defined.

(** C5 as stated fails.  In a file with two lines [a], replacing [a] by [b]
    succeeds twice: run on the file [a], [a] the update writes [b], [a], and
    run on that text it finds the second [a] and writes [b], [b]. *)
Lemma second_application_succeeds :
  oldLines replaceAbyB <> newLines replaceAbyB /\
  parsePatch 9 twoAsPatch = Some (Ok [UpdateFile (lit "aa.txt") None [replaceAbyB]]) /\
  applyUpdateChunks (lit "a
a
") [replaceAbyB] = Ok (lit "b
a
") /\
  applyUpdateChunks (lit "b
a
") [replaceAbyB] = Ok (lit "b
b
") /\
  applyPatch 9 twoAsPatch (lit "/tmp") workDirectory
    = Some (inr [lit "M aa.txt"],
            <[lit "/tmp/aa.txt" := lit "b
a
"]> workDirectory) /\
  applyPatch 9 twoAsPatch (lit "/tmp")
    (<[lit "/tmp/aa.txt" := lit "b
a
"]> workDirectory)
    = Some (inr [lit "M aa.txt"],
            <[lit "/tmp/aa.txt" := lit "b
b
"]> workDirectory).
Proof.
  split; [discriminate|]. repeat split; vm_compute; reflexivity.
Qed.

(** With a move destination the second application does not get as far as
    the search: the first one unlinked the source, and reading it is
    rejected by the filesystem. *)
Example second_application_after_move :
  exists moved,
    applyPatch 9 movePatch (lit "/tmp") testDirectory
      = Some (inr [lit "M dst.txt"], moved) /\
    applyPatch 9 movePatch (lit "/tmp") moved
      = Some (inl (FsFailed noEntry), moved).
Proof. eexists. split; vm_compute; reflexivity. Qed.

(** ** Replacements in descending order *)

Lemma insertByStart_perm (r : Replacement) (sorted : list Replacement) :
  insertByStart r sorted ≡ₚ r :: sorted.
Proof.
  induction sorted as [|x xs IH]; simpl; [done|].
  case_decide; [|done]. rewrite IH. apply Permutation_swap.
Qed.

Lemma sortByStartDesc_perm (rs : list Replacement) : sortByStartDesc rs ≡ₚ rs.
Proof.
  induction rs as [|r rs IH]; simpl; [done|].
  by rewrite insertByStart_perm, IH.
Qed.

Lemma insertByStart_sorted (r : Replacement) (sorted : list Replacement) :
  StronglySorted (fun a b => rStart b <= rStart a) sorted ->
  StronglySorted (fun a b => rStart b <= rStart a) (insertByStart r sorted).
Proof.
  induction 1 as [|x xs Hxs IH Hx]; simpl.
  - repeat constructor.
  - case_decide as Hlt.
    + constructor; [done|].
      rewrite insertByStart_perm. constructor; [lia | done].
    + constructor; [by constructor|].
      constructor; [lia|].
      eapply Forall_impl; [exact Hx|]. simpl. intros y Hy. lia.
Qed.

(** The splices run from the highest start down to the lowest. *)
Lemma sortByStartDesc_sorted (rs : list Replacement) :
  StronglySorted (fun a b => rStart b <= rStart a) (sortByStartDesc rs).
Proof.
  induction rs as [|r rs IH]; simpl; [constructor|].
  by apply insertByStart_sorted.
Qed.

Lemma insertByStart_lowest (r : Replacement) (sorted : list Replacement) :
  Forall (fun x => rStart r < rStart x) sorted ->
  insertByStart r sorted = sorted ++ [r].
Proof.
  induction 1 as [|x xs Hx Hxs IH]; simpl; [done|].
  case_decide; [by rewrite IH | done].
Qed.

Lemma Ascending_lo (lo hi : nat) (rs : list Replacement) :
  Ascending lo hi rs -> Forall (fun r => lo <= rStart r) rs.
Proof.
  revert lo. induction rs as [|r rs IH]; intros lo; simpl; [constructor|].
  intros (Hlo & Hlen & Hhi & Hrs). constructor; [done|].
  eapply Forall_impl; [exact (IH _ Hrs)|]. simpl. intros y Hy. lia.
Qed.

(** Spans queued in ascending order without overlap are sorted into the
    reverse of the queue. *)
Lemma sortByStartDesc_ascending (lo hi : nat) (rs : list Replacement) :
  Ascending lo hi rs -> sortByStartDesc rs = reverse rs.
Proof.
  revert lo. induction rs as [|r rs IH]; intros lo; simpl; [done|].
  intros (Hlo & Hlen & Hhi & Hrs).
  rewrite (IH _ Hrs), reverse_cons. apply insertByStart_lowest.
  rewrite Forall_reverse.
  eapply Forall_impl; [exact (Ascending_lo _ _ _ Hrs)|]. simpl. intros y Hy. lia.
Qed.

(** Splicing back to front leaves the lines below the lowest span alone and
    puts every span at its original position. *)
Lemma applyReplacements_reverse (lines : list str) (lo : nat) (rs : list Replacement) :
  Ascending lo (length lines) rs ->
  applyReplacements lines (reverse rs) =
  take lo lines ++ substituteFrom (drop lo lines) lo rs.
Proof.
  revert lo. induction rs as [|r rs IH]; intros lo; simpl.
  - intros _. by rewrite take_drop.
  - intros (Hlo & Hlen & Hhi & Hrs).
    rewrite reverse_cons. unfold applyReplacements. rewrite foldl_app. simpl.
    fold (applyReplacements lines (reverse rs)). rewrite (IH _ Hrs).
    unfold splice.
    rewrite take_app_le by (rewrite length_take; lia).
    rewrite take_take, Nat.min_l by lia.
    rewrite drop_app_length' by (rewrite length_take; lia).
    rewrite drop_drop.
    replace (lo + (rStart r - lo + rLength r)) with (rStart r + rLength r) by lia.
    assert (take (rStart r) lines
            = take lo lines ++ take (rStart r - lo) (drop lo lines)) as ->.
    { rewrite take_take_drop. f_equal. lia. }
    by rewrite <- app_assoc.
Qed.

(** The queue of an update whose chunks all have a non-empty pattern. *)
Lemma chunksLoop_ascending (lines : list str) (chunks : list UpdateFileChunk)
    (searchStart searchStart' : nat) (queued replacements : list Replacement) :
  Forall (fun chunk => patternOf chunk <> []) chunks ->
  chunksLoop lines chunks searchStart queued = Ok (replacements, searchStart') ->
  exists new, replacements = queued ++ new /\
              Ascending searchStart (length lines) new.
Proof.
  intros Hall. revert searchStart queued.
  induction Hall as [|chunk chunks Hne Hall IH]; intros searchStart queued; simpl.
  - intros [= <- <-]. exists []. by rewrite app_nil_r.
  - rewrite processChunk_seek by done.
    pose proof (seekContext_ge lines chunk searchStart) as Hctx.
    pose proof (seekSequence_cons_spec lines (patternOf chunk)
                  (seekContext lines chunk searchStart) Hne) as Hspec.
    destruct (seekSequence lines (patternOf chunk) _) as [m|]; [|done].
    simpl. intros Hrest. apply IH in Hrest as (new & -> & Hasc).
    destruct Hspec as (Hle & Hfit & _).
    eexists (_ :: new). rewrite <- app_assoc. split; [done|].
    simpl. repeat split; try done; try lia.
    destruct (patternOf chunk); [done | simpl; lia].
Qed.

(** X8. When every chunk of an update has a non-empty pattern and all of
    them match, the edited buffer is the original with each matched span
    replaced, at its original position, by its chunk's new lines. *)
Theorem editedLines_substitutes (content : str) (chunks : list UpdateFileChunk)
    (replacements : list Replacement) (searchStart : nat) :
  Forall (fun chunk => patternOf chunk <> []) chunks ->
  chunksLoop (fileLines content) chunks 0 [] = Ok (replacements, searchStart) ->
  editedLines content chunks = Ok (substituteFrom (fileLines content) 0 replacements).
Proof.
  intros Hall Hloop. unfold editedLines. rewrite Hloop. simpl.
  destruct (chunksLoop_ascending _ _ _ _ _ _ Hall Hloop) as (new & -> & Hasc).
  simpl. rewrite (sortByStartDesc_ascending _ _ _ Hasc).
  by rewrite (applyReplacements_reverse _ 0 _ Hasc).
Qed.

(** Two single-line edits in different regions of one file land on the
    lines they were matched at. *)
Example two_edits_land :
  applyUpdateChunks (lit "a
b
c
d
") [ {| changeContext := None; oldLines := [lit "b"];
        newLines := [lit "B1"; lit "B2"]; isEndOfFile := false |};
      {| changeContext := None; oldLines := [lit "d"];
        newLines := [lit "D"]; isEndOfFile := false |} ]
  = Ok (lit "a
B1
B2
c
D
").
Proof. reflexivity. Qed.

(** C2 fails on the code when two queued replacements start at the same
    line.  [tiePatch] parses into an insertion whose pattern normalizes to
    the empty one, queued at start 0 with length 0, and the replacement of
    [x], queued at start 0 with length 1.  The stable sort keeps the
    insertion first; the second splice then replaces the inserted [n1]
    instead of [x].  The text written is [z], [x], [y], where the edit at the
    positions of the original is [n1], [z], [y]. *)
Theorem equal_starts_misplace_edit :
  parsePatch 9 tiePatch
    = Some (Ok [UpdateFile (lit "f") None [insertN1; replaceXbyZ]]) /\
  chunksLoop (fileLines (lit "x
y
")) [insertN1; replaceXbyZ] 0 []
    = Ok ([ {| rStart := 0; rLength := 0; rNewLines := [lit "n1"] |};
            {| rStart := 0; rLength := 1; rNewLines := [lit "z"] |} ], 1) /\
  substituteFrom [lit "x"; lit "y"] 0
    [ {| rStart := 0; rLength := 0; rNewLines := [lit "n1"] |};
      {| rStart := 0; rLength := 1; rNewLines := [lit "z"] |} ]
    = [lit "n1"; lit "z"; lit "y"] /\
  editedLines (lit "x
y
") [insertN1; replaceXbyZ] = Ok [lit "z"; lit "x"; lit "y"] /\
  applyUpdateChunks (lit "x
y
") [insertN1; replaceXbyZ] = Ok (lit "z
x
y
").
Proof. repeat split. Qed.

(** ** Progress of the parser loops *)

Lemma chunkBody_index (rest : list str) (i j : nat) (chunk chunk' : UpdateFileChunk)
    (hasContent : bool) :
  chunkBody rest i chunk hasContent = Ok (chunk', j) -> i <= j.
Proof.
  revert i chunk hasContent.
  induction rest as [|line rest IH]; intros i chunk hasContent; simpl.
  - intros [= _ <-]. lia.
  - destruct (decide (line = EOF_MARKER)); [intros [= _ <-]; lia|].
    destruct (startsWith line (lit "***") || startsWith line (lit "@@"));
      [intros [= _ <-]; lia|].
    repeat case_decide; try (intros Hbody; apply IH in Hbody; lia).
    destruct hasContent; [intros [= _ <-]; lia | done].
Qed.

(** Away from glued [@@] lines, a chunk parser called as the chunk loop
    calls it, on a line that is not blank and has no [***] prefix, consumes
    at least one line. *)
Lemma parseUpdateFileChunk_progress (lines : list str) (i consumed : nat)
    (first : str) (chunk : UpdateFileChunk) :
  lines !! i = Some first ->
  startsWith first (lit "***") = false ->
  trim first <> [] ->
  ~ GluedContext first ->
  parseUpdateFileChunk lines i = Ok (chunk, consumed) ->
  1 <= consumed.
Proof.
  intros Hfirst Hstar Hink Hglue. unfold parseUpdateFileChunk. rewrite Hfirst.
  destruct (decide (first = EMPTY_CHANGE_CONTEXT_MARKER)) as [Hbare|Hbare].
  { destruct (chunkBody _ _ _ _) as [[c j]|e] eqn:Hbody; [|done].
    simpl. intros [= _ <-]. apply chunkBody_index in Hbody. lia. }
  destruct (startsWith first CHANGE_CONTEXT_MARKER) eqn:Hctx.
  { destruct (chunkBody _ _ _ _) as [[c j]|e] eqn:Hbody; [|done].
    simpl. intros [= _ <-]. apply chunkBody_index in Hbody. lia. }
  assert (Hat : startsWith first (lit "@@") = false).
  { destruct (startsWith first (lit "@@")) eqn:Hat; [|done].
    destruct Hglue. by repeat split. }
  rewrite (drop_S _ _ _ Hfirst). simpl.
  destruct (decide (first = EOF_MARKER)) as [->|_]; [done|].
  rewrite Hstar, Hat. simpl.
  destruct (decide (trim first = [])); [done|].
  repeat case_decide;
    try (destruct (chunkBody _ _ _ _) as [[c j]|e] eqn:Hbody; [|done];
         simpl; intros [= _ <-]; apply chunkBody_index in Hbody; lia).
  done.
Qed.

Lemma chunkLoop_index (fuel : nat) (lines : list str) (i j : nat)
    (chunks chunks' : list UpdateFileChunk) :
  chunkLoop fuel lines i chunks = Some (Ok (chunks', j)) -> i <= j.
Proof.
  revert i chunks.
  induction fuel as [|fuel IH]; intros i chunks; rewrite chunkLoop_unfold;
    destruct (lines !! i) as [line|]; try (intros [= _ <-]; lia);
    destruct (startsWith line (lit "***")); try (intros [= _ <-]; lia);
    try done.
  destruct (decide (trim line = [])); [intros Hloop; apply IH in Hloop; lia|].
  destruct (parseUpdateFileChunk lines i) as [[chunk consumed]|e]; [|done].
  intros Hloop; apply IH in Hloop; lia.
Qed.

Lemma addLoop_index (rest : list str) (contents : str) (i : nat) :
  i <= (addLoop rest contents i).2.
Proof.
  revert contents i. induction rest as [|line rest IH]; intros contents i; simpl.
  - lia.
  - destruct (startsWith line (lit "+")); simpl; [|lia].
    transitivity (S i); [lia | apply IH].
Qed.

(** A hunk parser that returns a hunk has consumed at least its header. *)
Lemma parseOneHunk_progress (fuel : nat) (lines : list str) (i consumed : nat)
    (hunk : Hunk) :
  parseOneHunk fuel lines i = Some (Ok (hunk, consumed)) -> 1 <= consumed.
Proof.
  unfold parseOneHunk.
  destruct (lines !! i) as [raw|]; [|done].
  destruct (startsWith (trim raw) ADD_FILE_MARKER).
  { pose proof (addLoop_index (drop (S i) lines) [] (S i)) as Hadd.
    destruct (addLoop _ _ _) as [contents j]. simpl in Hadd.
    intros [= _ <-]. lia. }
  destruct (startsWith (trim raw) DELETE_FILE_MARKER); [intros [= _ <-]; lia|].
  destruct (startsWith (trim raw) UPDATE_FILE_MARKER); [|done].
  assert (Hmove : S i <= (match lines !! S i with
                          | Some next =>
                              if startsWith next MOVE_TO_MARKER then
                                (Some (substring next (length MOVE_TO_MARKER)),
                                 S (S i))
                              else (None, S i)
                          | None => (None, S i)
                          end).2).
  { destruct (lines !! S i) as [next|]; [|simpl; lia].
    destruct (startsWith next MOVE_TO_MARKER); simpl; lia. }
  destruct (match lines !! S i with
            | Some next => _
            | None => _
            end) as [movePath j].
  simpl in Hmove.
  destruct (chunkLoop fuel lines j []) as [[[chunks k]|e]|] eqn:Hloop; try done.
  apply chunkLoop_index in Hloop.
  destruct (decide (length chunks = 0)); [done|].
  intros [= _ <-]. lia.
Qed.

(** ** Termination away from glued [@@] lines *)

Section Termination.

Context (lines : list str).
Hypothesis no_glued : Forall (fun line => ~ GluedContext line) lines.

Lemma chunkLoop_terminates (fuel i : nat) (chunks : list UpdateFileChunk) :
  length lines - i <= fuel -> is_Some (chunkLoop fuel lines i chunks).
Proof using no_glued.
  revert i chunks.
  induction fuel as [|fuel IH]; intros i chunks Hfuel; rewrite chunkLoop_unfold;
    destruct (lines !! i) as [line|] eqn:Hline; try done;
    destruct (startsWith line (lit "***")) eqn:Hstar; try done.
  { apply lookup_lt_Some in Hline. lia. }
  apply lookup_lt_Some in Hline as Hi.
  destruct (decide (trim line = [])) as [|Hink]; [apply IH; lia|].
  destruct (parseUpdateFileChunk lines i) as [[chunk consumed]|e] eqn:Hchunk;
    [|done].
  apply IH.
  assert (1 <= consumed); [|lia].
  eapply parseUpdateFileChunk_progress; try done.
  by eapply Forall_lookup_1 in no_glued.
Qed.

Lemma parseOneHunk_terminates (fuel i : nat) :
  length lines - S i <= fuel -> is_Some (parseOneHunk fuel lines i).
Proof using no_glued.
  intros Hfuel. unfold parseOneHunk.
  destruct (lines !! i) as [raw|]; [|done].
  destruct (startsWith (trim raw) ADD_FILE_MARKER).
  { by destruct (addLoop _ _ _). }
  destruct (startsWith (trim raw) DELETE_FILE_MARKER); [done|].
  destruct (startsWith (trim raw) UPDATE_FILE_MARKER); [|done].
  assert (Hmove : S i <= (match lines !! S i with
                          | Some next =>
                              if startsWith next MOVE_TO_MARKER then
                                (Some (substring next (length MOVE_TO_MARKER)),
                                 S (S i))
                              else (None, S i)
                          | None => (None, S i)
                          end).2).
  { destruct (lines !! S i) as [next|]; [|simpl; lia].
    destruct (startsWith next MOVE_TO_MARKER); simpl; lia. }
  destruct (match lines !! S i with
            | Some next => _
            | None => _
            end) as [movePath j].
  simpl in Hmove.
  destruct (chunkLoop_terminates fuel j []) as [r Hr]; [lia|].
  rewrite Hr. destruct r as [[chunks k]|e]; [|done].
  by destruct (decide (length chunks = 0)).
Qed.

Lemma hunkLoop_terminates (fuel i : nat) (hunks : list Hunk) :
  length lines - i <= fuel -> is_Some (hunkLoop fuel lines i hunks).
Proof using no_glued.
  revert i hunks.
  induction fuel as [|fuel IH]; intros i hunks Hfuel; rewrite hunkLoop_unfold;
    destruct (decide (i < length lines - 1)); try done; [lia|].
  destruct (parseOneHunk_terminates fuel i) as [r Hr]; [lia|].
  rewrite Hr. destruct r as [[hunk consumed]|e]; [|done].
  apply parseOneHunk_progress in Hr. apply IH. lia.
Qed.

End Termination.

(** X5. On a patch without glued [@@] lines [parsePatch] returns a hunk
    list or throws, within a fuel of one unit per line. *)
Theorem parsePatch_terminates (patch : str) :
  Forall (fun line => ~ GluedContext line) (split (trim patch)) ->
  forall fuel, length (split (trim patch)) <= fuel ->
  is_Some (parsePatch fuel patch).
Proof.
  intros Hglue fuel Hfuel. unfold parsePatch.
  repeat case_decide; try done.
  apply hunkLoop_terminates; [done | lia].
Qed.

(** ** Reading back what was written *)

Lemma split_nonempty (s : str) : split s <> [].
Proof.
  destruct s as [|c s]; simpl; [done|].
  case_decide; [done|]. by destruct (split s).
Qed.

Lemma split_newline_free (s : str) :
  Forall (fun line => newline ∉ line) (split s).
Proof.
  induction s as [|c s IH]; simpl.
  - repeat constructor. apply not_elem_of_nil.
  - case_decide as Hc.
    + constructor; [apply not_elem_of_nil | done].
    + destruct (split s) as [|l ls].
      * repeat constructor. rewrite not_elem_of_cons.
        split; [done | apply not_elem_of_nil].
      * apply Forall_cons in IH as [Hl Hls]. constructor; [|done].
        rewrite not_elem_of_cons. by split.
Qed.

Lemma split_cons (c : N) (s : str) :
  split (c :: s) =
  if decide (c = newline) then [] :: split s
  else match split s with
       | l :: ls => (c :: l) :: ls
       | [] => [[c]]
       end.
Proof. reflexivity. Qed.

Lemma split_line (x : str) : newline ∉ x -> split x = [x].
Proof.
  induction x as [|c x IH]; [done|].
  rewrite not_elem_of_cons. intros [Hc Hx].
  rewrite split_cons, decide_False by done. by rewrite IH.
Qed.

Lemma split_line_newline (x rest : str) :
  newline ∉ x -> split (x ++ newline :: rest) = x :: split rest.
Proof.
  induction x as [|c x IH].
  - intros _. change ([] ++ newline :: rest) with (newline :: rest).
    by rewrite split_cons, decide_True.
  - rewrite not_elem_of_cons. intros [Hc Hx].
    change ((c :: x) ++ newline :: rest) with (c :: x ++ newline :: rest).
    rewrite split_cons, decide_False by done. by rewrite IH.
Qed.

(** [split] undoes [join] on lines without newlines. *)
Lemma split_join (ls : list str) :
  ls <> [] -> Forall (fun line => newline ∉ line) ls -> split (join ls) = ls.
Proof.
  induction ls as [|x ls IH]; [done|]. intros _ Hfree.
  apply Forall_cons in Hfree as [Hx Hls].
  destruct ls as [|y ls]; [by apply split_line|].
  change (join (x :: y :: ls)) with (x ++ newline :: join (y :: ls)).
  rewrite split_line_newline by done. by rewrite IH.
Qed.

(** X12. Read back, the text written for a buffer of newline-free lines
    gives the buffer again, without one trailing blank line if it ended in
    one. *)
Lemma fileLines_serialize (buffer : list str) :
  Forall (fun line => newline ∉ line) buffer ->
  fileLines (serialize buffer) =
  if decide (last buffer = Some []) then removelast buffer else buffer.
Proof.
  intros Hfree. unfold fileLines, serialize, ensureTrailing.
  destruct (decide (0 < length buffer /\ last buffer <> Some [])) as [[Hlen Hlast]|Hn].
  - rewrite split_join.
    + rewrite last_snoc, decide_True by done.
      rewrite removelast_last. by rewrite decide_False.
    + by destruct buffer.
    + apply Forall_app. split; [done|]. repeat constructor. apply not_elem_of_nil.
  - destruct buffer as [|x buffer]; [done|].
    assert (Hlast : last (x :: buffer) = Some []).
    { destruct (decide (last (x :: buffer) = Some [])); [done|].
      destruct Hn. split; [simpl; lia | done]. }
    rewrite split_join by done. by rewrite !decide_True.
Qed.

(** * Further properties of the parser *)

Lemma startsWith_cons (d c : N) (s p : str) :
  startsWith (d :: s) (c :: p) = if decide (d = c) then startsWith s p else false.
Proof. reflexivity. Qed.

Lemma startsWith_app (p rest : str) : startsWith (p ++ rest) p = true.
Proof.
  induction p as [|c p IH]; [by destruct rest|].
  change ((c :: p) ++ rest) with (c :: p ++ rest).
  by rewrite startsWith_cons, decide_True.
Qed.

Lemma startsWith_true (s p : str) :
  startsWith s p = true -> exists rest, s = p ++ rest.
Proof.
  revert s. induction p as [|c p IH]; intros s.
  - intros _. by exists s.
  - destruct s as [|d s]; [done|]. rewrite startsWith_cons.
    case_decide as Hd; [|done].
    intros H. apply IH in H as [rest ->]. exists rest. by rewrite Hd.
Qed.

Lemma lookup_middle (pre : list str) (x : str) (post : list str) :
  (pre ++ x :: post) !! length pre = Some x.
Proof. by apply list_lookup_middle. Qed.

Lemma drop_middle (pre : list str) (x : str) (post : list str) :
  drop (S (length pre)) (pre ++ x :: post) = post.
Proof.
  rewrite (cons_middle x pre post), app_assoc.
  apply drop_app_length'. rewrite length_app. simpl. lia.
Qed.

(** The add loop takes the whole run of [+] lines and stops behind it. *)
Lemma addLoop_run (plus rest : list str) (contents : str) (i : nat) :
  Forall (fun line => startsWith line (lit "+") = true) plus ->
  (forall line, head rest = Some line -> startsWith line (lit "+") = false) ->
  addLoop (plus ++ rest) contents i =
  (contents ++ addedContents plus, i + length plus).
Proof.
  intros Hplus Hstop. revert contents i.
  induction Hplus as [|line plus Hline Hplus IH]; intros contents i; simpl.
  - rewrite app_nil_r, Nat.add_0_r.
    destruct rest as [|line rest]; [done|]. simpl.
    by rewrite (Hstop line eq_refl).
  - rewrite Hline, IH. f_equal; [|lia].
    by rewrite <- !app_assoc.
Qed.

(** X1. An add header followed by a run of [+] lines parses into an add
    hunk: the path is what follows the marker on the trimmed header, the
    contents are the [+] lines without their first character, each followed
    by a newline, and the hunk consumes the header and the run. *)
Theorem parseOneHunk_add (fuel : nat) (pre : list str) (header : str)
    (plus rest : list str) :
  startsWith (trim header) ADD_FILE_MARKER = true ->
  Forall (fun line => startsWith line (lit "+") = true) plus ->
  (forall line, head rest = Some line -> startsWith line (lit "+") = false) ->
  parseOneHunk fuel (pre ++ header :: plus ++ rest) (length pre) =
  Some (Ok (AddFile (substring (trim header) (length ADD_FILE_MARKER))
                    (addedContents plus),
            S (length plus))).
Proof.
  intros Hadd Hplus Hstop. unfold parseOneHunk.
  rewrite lookup_middle, Hadd, drop_middle, addLoop_run by done.
  simpl. do 4 f_equal. lia.
Qed.

(** X1 on the add hunk of the test-suite. *)
Lemma parseOneHunk_add_witness :
  parseOneHunk 0
    ([BEGIN_PATCH_MARKER] ++ lit "*** Add File: path/add.py"
       :: [lit "+abc"; lit "+def"] ++ [END_PATCH_MARKER]) 1 =
  Some (Ok (AddFile (lit "path/add.py") (lit "abc
def
"), 3)).
Proof.
  apply (parseOneHunk_add 0 [BEGIN_PATCH_MARKER] (lit "*** Add File: path/add.py")
           [lit "+abc"; lit "+def"] [END_PATCH_MARKER]).
  - reflexivity.
  - repeat constructor.
  - intros line [= <-]. reflexivity.
Defined.

(** ** Blank lines *)

Lemma trimStart_white (s : str) :
  Forall (fun c => isWhite c = true) (trimStart s) ->
  Forall (fun c => isWhite c = true) s.
Proof.
  induction s as [|c s IH]; [done|]. simpl.
  destruct (isWhite c) eqn:Hc; [|done].
  intros H. constructor; [done | by apply IH].
Qed.

(** A line that trims to nothing holds white space only. *)
Lemma trim_nil_white (s : str) :
  trim s = [] -> Forall (fun c => isWhite c = true) s.
Proof.
  unfold trim, trimEnd. intros H.
  apply trimStart_white.
  apply (f_equal reverse) in H. rewrite reverse_involutive in H.
  change (reverse []) with (@nil N) in H.
  rewrite <- (reverse_involutive (trimStart s)).
  apply Forall_reverse. apply trimStart_white. rewrite H. constructor.
Qed.

Lemma blank_no_marker (line p : str) (c : N) :
  trim line = [] -> head p = Some c -> isWhite c = false ->
  startsWith line p = false.
Proof.
  intros Hblank Hp Hc.
  destruct (startsWith line p) eqn:Hs; [|done].
  apply startsWith_true in Hs as [rest ->].
  apply trim_nil_white in Hblank.
  destruct p as [|d p]; [done|]. injection Hp as ->.
  apply Forall_cons in Hblank as [Hwhite _]. congruence.
Qed.

(** The chunk loop walks over blank lines and stops at a [***] line. *)
Lemma chunkLoop_blanks (fuel : nat) (pre blanks : list str) (stop : str)
    (rest : list str) (chunks : list UpdateFileChunk) :
  Forall (fun line => trim line = []) blanks ->
  startsWith stop (lit "***") = true ->
  length blanks <= fuel ->
  chunkLoop fuel (pre ++ blanks ++ stop :: rest) (length pre) chunks =
  Some (Ok (chunks, length pre + length blanks)).
Proof.
  intros Hblanks Hstop. revert fuel pre.
  induction Hblanks as [|line blanks Hline Hblanks IH]; intros fuel pre Hfuel.
  - rewrite chunkLoop_unfold. simpl. rewrite lookup_middle, Hstop.
    by rewrite Nat.add_0_r.
  - rewrite chunkLoop_unfold. simpl. rewrite lookup_middle.
    rewrite (blank_no_marker line (lit "***") 42%N) by done.
    destruct fuel as [|fuel]; [simpl in Hfuel; lia|].
    rewrite decide_True by done.
    specialize (IH fuel (pre ++ [line])).
    rewrite <- app_assoc, length_app in IH. simpl in IH.
    rewrite Nat.add_1_r in IH. rewrite IH by (simpl in Hfuel; lia).
    do 3 f_equal. simpl. lia.
Qed.

Lemma update_not_add_delete (line : str) :
  startsWith line UPDATE_FILE_MARKER = true ->
  startsWith line ADD_FILE_MARKER = false /\
  startsWith line DELETE_FILE_MARKER = false.
Proof. intros H. by apply startsWith_true in H as [rest ->]. Qed.

(** X2. An update header that is followed, after any number of blank
    lines, by a line starting with [***] (and not by a move line) has no
    chunks: the hunk parser throws [Update file hunk for path '...' is
    empty], naming the path read from the trimmed header. *)
Theorem parseOneHunk_empty_update (fuel : nat) (pre : list str) (header : str)
    (blanks : list str) (stop : str) (rest : list str) :
  startsWith (trim header) UPDATE_FILE_MARKER = true ->
  Forall (fun line => trim line = []) blanks ->
  startsWith stop (lit "***") = true ->
  startsWith stop MOVE_TO_MARKER = false ->
  length blanks <= fuel ->
  parseOneHunk fuel (pre ++ header :: blanks ++ stop :: rest) (length pre) =
  Some (fail (emptyUpdate
                (substring (trim header) (length UPDATE_FILE_MARKER)))).
Proof.
  intros Hupd Hblanks Hstop Hmove Hfuel. unfold parseOneHunk.
  rewrite lookup_middle.
  destruct (update_not_add_delete _ Hupd) as [-> ->]. rewrite Hupd.
  assert (Hnext : exists next,
            (pre ++ header :: blanks ++ stop :: rest) !! S (length pre) = Some next
            /\ startsWith next MOVE_TO_MARKER = false).
  { rewrite (cons_middle header pre), app_assoc.
    replace (S (length pre)) with (length (pre ++ [header]))
      by (rewrite length_app; simpl; lia).
    destruct Hblanks as [|line blanks Hline Hblanks]; simpl.
    - exists stop. by rewrite lookup_middle.
    - exists line. rewrite lookup_middle. split; [done|].
      by apply (blank_no_marker line MOVE_TO_MARKER 42%N). }
  destruct Hnext as (next & -> & ->).
  rewrite (cons_middle header pre), app_assoc.
  replace (S (length pre)) with (length (pre ++ [header]))
    by (rewrite length_app; simpl; lia).
  by rewrite chunkLoop_blanks.
Qed.

(** X2 on the empty update of the test-suite, with a blank line added. *)
Lemma parseOneHunk_empty_update_witness :
  parseOneHunk 1
    ([BEGIN_PATCH_MARKER] ++ lit "*** Update File: test.py"
       :: [[]] ++ END_PATCH_MARKER :: []) 1 =
  Some (fail (emptyUpdate (lit "test.py"))).
Proof.
  apply (parseOneHunk_empty_update 1 [BEGIN_PATCH_MARKER]
           (lit "*** Update File: test.py") [[]] END_PATCH_MARKER []).
  - reflexivity.
  - repeat constructor.
  - reflexivity.
  - reflexivity.
  - simpl. lia.
Defined.

(** ** The sides of a chunk body *)

Lemma Prefixed_classified (line : str) :
  Prefixed line ->
  line <> EOF_MARKER /\ startsWith line (lit "***") = false /\
  startsWith line (lit "@@") = false /\
  line <> EMPTY_CHANGE_CONTEXT_MARKER /\
  startsWith line CHANGE_CONTEXT_MARKER = false.
Proof.
  destruct line as [|c line]; intros [H|[H|H]]; try discriminate H;
    injection H as ->; repeat split; discriminate.
Qed.

Lemma chunkBody_prefixed (line : str) (rest : list str) (i : nat)
    (chunk : UpdateFileChunk) (hasContent : bool) :
  Prefixed line ->
  chunkBody (line :: rest) i chunk hasContent =
  chunkBody rest (S i) (extend chunk [line]) true.
Proof.
  destruct line as [|c line]; intros [H|[H|H]]; try discriminate H;
    injection H as ->.
  - reflexivity.
  - transitivity (chunkBody rest (S i) (pushOld chunk line) true); [reflexivity|].
    f_equal. unfold extend, pushOld. f_equal. symmetry. apply app_nil_r.
  - transitivity (chunkBody rest (S i) (pushNew chunk line) true); [reflexivity|].
    f_equal. unfold extend, pushNew. f_equal. symmetry. apply app_nil_r.
Qed.

Lemma extend_cons (chunk : UpdateFileChunk) (line : str) (body : list str) :
  extend (extend chunk [line]) body = extend chunk (line :: body).
Proof.
  unfold extend, oldSide, newSide. simpl.
  rewrite <- !app_assoc, !filter_cons, !filter_nil.
  by repeat case_decide.
Qed.

Lemma extend_nil (chunk : UpdateFileChunk) : extend chunk [] = chunk.
Proof.
  destruct chunk. unfold extend, oldSide, newSide. simpl.
  by rewrite !app_nil_r.
Qed.

(** The body loop takes a run of prefixed lines to the two sides. *)
Lemma chunkBody_run (body rest : list str) (i : nat) (chunk : UpdateFileChunk)
    (hasContent : bool) :
  Forall Prefixed body ->
  exists hasContent',
    chunkBody (body ++ rest) i chunk hasContent =
    chunkBody rest (i + length body) (extend chunk body) hasContent'.
Proof.
  intros Hbody. revert i chunk hasContent.
  induction Hbody as [|line body Hline Hbody IH]; intros i chunk hasContent.
  - exists hasContent. by rewrite extend_nil, Nat.add_0_r.
  - change ((line :: body) ++ rest) with (line :: body ++ rest).
    rewrite chunkBody_prefixed by done.
    destruct (IH (S i) (extend chunk [line]) true) as [h' ->].
    exists h'. rewrite extend_cons.
    by replace (i + length (line :: body)) with (S i + length body)
      by (simpl; lia).
Qed.

Lemma chunkBody_boundary (stop : str) (rest : list str) (i : nat)
    (chunk : UpdateFileChunk) (hasContent : bool) :
  Boundary stop -> chunkBody (stop :: rest) i chunk hasContent = Ok (chunk, i).
Proof.
  intros [Heof Hstop]. cbn [chunkBody]. rewrite decide_False by done.
  by destruct Hstop as [-> | ->]; rewrite ?orb_true_r.
Qed.

Lemma chunkBody_sides (body rest : list str) (i : nat) (chunk : UpdateFileChunk)
    (hasContent : bool) :
  Forall Prefixed body ->
  ((rest = [] \/ exists stop, head rest = Some stop /\ Boundary stop) ->
   chunkBody (body ++ rest) i chunk hasContent =
   Ok (extend chunk body, i + length body)) /\
  chunkBody (body ++ EOF_MARKER :: rest) i chunk hasContent =
  Ok (setEndOfFile (extend chunk body), S (i + length body)).
Proof.
  intros Hbody. split.
  - intros Hrest.
    destruct (chunkBody_run body rest i chunk hasContent Hbody) as [h' ->].
    destruct Hrest as [-> | (stop & Hhead & Hstop)]; [done|].
    destruct rest as [|stop' rest]; [done|]. injection Hhead as ->.
    by apply chunkBody_boundary.
  - destruct (chunkBody_run body (EOF_MARKER :: rest) i chunk hasContent Hbody)
      as [h' ->].
    cbn [chunkBody]. by rewrite decide_True.
Qed.

(** A chunk with a header and a run of prefixed lines, as the chunk parser
    reads it. *)
Lemma parseUpdateFileChunk_run (pre : list str) (ctx : option str)
    (body rest : list str) :
  Forall Prefixed body ->
  ((rest = [] \/ exists stop, head rest = Some stop /\ Boundary stop) ->
   parseUpdateFileChunk (pre ++ contextHeader ctx :: body ++ rest) (length pre) =
   Ok (parsedChunk ctx body false, S (length body))) /\
  parseUpdateFileChunk (pre ++ contextHeader ctx :: body ++ EOF_MARKER :: rest)
    (length pre) =
  Ok (parsedChunk ctx body true, S (S (length body))).
Proof.
  intros Hbody.
  assert (Hhead : forall tail,
    parseUpdateFileChunk (pre ++ contextHeader ctx :: tail) (length pre) =
    '(chunk, i) ← chunkBody tail (S (length pre)) (emptyChunk ctx) false;
    Ok (chunk, i - length pre)).
  { intros tail. unfold parseUpdateFileChunk. rewrite lookup_middle.
    destruct ctx as [hint|]; unfold contextHeader.
    - rewrite decide_False by discriminate.
      rewrite startsWith_app, drop_middle.
      replace (substring (CHANGE_CONTEXT_MARKER ++ hint)
                 (length CHANGE_CONTEXT_MARKER)) with hint; [done|].
      unfold substring. by rewrite drop_app_length.
    - rewrite decide_True by done. by rewrite drop_middle. }
  rewrite !Hhead.
  destruct (chunkBody_sides body rest (S (length pre)) (emptyChunk ctx) false Hbody)
    as [Hopen Hclosed].
  split.
  - intros Hrest. rewrite Hopen by done. simpl. do 2 f_equal. lia.
  - rewrite Hclosed. simpl. do 2 f_equal. lia.
Qed.

(** X3. A chunk header ([@@] or [@@ hint]) followed by a run of lines that
    start with a space, [-] or [+] parses into the chunk whose old lines are
    the lines of the run that are not additions and whose new lines are those
    that are not deletions, each without its first character and in order.
    The chunk ends unconsumed at the end of the input and at a [***] or [@@]
    line; the end-of-file marker is consumed and sets [isEndOfFile]. *)
Theorem parseUpdateFileChunk_sides (pre : list str) (ctx : option str)
    (body rest : list str) :
  Forall Prefixed body ->
  ((rest = [] \/ exists stop, head rest = Some stop /\ Boundary stop) ->
   parseUpdateFileChunk (pre ++ contextHeader ctx :: body ++ rest) (length pre) =
   Ok (parsedChunk ctx body false, S (length body))) /\
  parseUpdateFileChunk (pre ++ contextHeader ctx :: body ++ EOF_MARKER :: rest)
    (length pre) =
  Ok (parsedChunk ctx body true, S (S (length body))).
Proof. apply parseUpdateFileChunk_run. Qed.

(** X3 on the chunk of the test-suite's update with a move. *)
Lemma parseUpdateFileChunk_sides_witness :
  parseUpdateFileChunk
    ([BEGIN_PATCH_MARKER] ++ contextHeader (Some (lit "def f():"))
       :: [lit "-    pass"; lit "+    return 123"] ++ [END_PATCH_MARKER]) 1 =
  Ok ({| changeContext := Some (lit "def f():"); oldLines := [lit "    pass"];
         newLines := [lit "    return 123"]; isEndOfFile := false |}, 3).
Proof.
  assert (Hbody : Forall Prefixed [lit "-    pass"; lit "+    return 123"]).
  { constructor; [right; left; reflexivity|].
    constructor; [right; right; reflexivity | constructor]. }
  apply (proj1 (parseUpdateFileChunk_sides [BEGIN_PATCH_MARKER]
                  (Some (lit "def f():"))
                  [lit "-    pass"; lit "+    return 123"] [END_PATCH_MARKER]
                  Hbody)).
  right. exists END_PATCH_MARKER. split; [reflexivity|].
  split; [discriminate | left; reflexivity].
Defined.

(** ** Lines consumed by the chunk parser and the hunk parser *)

(** X4. Called as the chunk loop calls it, on a line that is not blank and
    does not start with [***], a chunk parser that returns has consumed no
    line exactly when that line starts with [@@] without being a context
    marker; on every other line it consumes at least one. *)
Theorem parseUpdateFileChunk_consumes (lines : list str) (i consumed : nat)
    (first : str) (chunk : UpdateFileChunk) :
  lines !! i = Some first ->
  startsWith first (lit "***") = false ->
  trim first <> [] ->
  parseUpdateFileChunk lines i = Ok (chunk, consumed) ->
  (consumed = 0 <-> GluedContext first) /\ (~ GluedContext first -> 1 <= consumed).
Proof.
  intros Hfirst Hstar Hink Hparse.
  assert (Hprogress : ~ GluedContext first -> 1 <= consumed).
  { intros Hglue. by eapply parseUpdateFileChunk_progress. }
  split; [|done]. split.
  - intros ->.
    destruct (startsWith first (lit "@@")) eqn:Hat;
      [|exfalso; enough (1 <= 0) by lia; apply Hprogress;
        intros (H1 & H2 & H3); congruence].
    destruct (decide (first = EMPTY_CHANGE_CONTEXT_MARKER)) as [Hbare|Hbare];
      [exfalso; enough (1 <= 0) by lia; apply Hprogress;
       intros (H1 & H2 & H3); congruence|].
    destruct (startsWith first CHANGE_CONTEXT_MARKER) eqn:Hctx;
      [exfalso; enough (1 <= 0) by lia; apply Hprogress;
       intros (H1 & H2 & H3); congruence|].
    done.
  - intros (Hat & Hbare & Hctx). revert Hparse.
    unfold parseUpdateFileChunk. rewrite Hfirst, decide_False, Hctx by done.
    rewrite (drop_S _ _ _ Hfirst). cbn [chunkBody].
    rewrite decide_False by (intros ->; discriminate Hat).
    rewrite Hat, orb_true_r. simpl. intros [= _ <-]. lia.
Qed.

(** X4 on the line [@@foo]. *)
Lemma parseUpdateFileChunk_consumes_witness :
  (0 = 0 <-> GluedContext (lit "@@foo")) /\
  (~ GluedContext (lit "@@foo") -> 1 <= 0).
Proof.
  apply (parseUpdateFileChunk_consumes [lit "@@foo"] 0 0 (lit "@@foo")
           (emptyChunk None)).
  - reflexivity.
  - reflexivity.
  - discriminate.
  - reflexivity.
Defined.

Lemma chunkBody_stops (rest : list str) (k i j : nat) (stop : str)
    (chunk chunk' : UpdateFileChunk) (hasContent : bool) :
  rest !! k = Some stop ->
  startsWith stop (lit "***") = true -> stop <> EOF_MARKER ->
  chunkBody rest i chunk hasContent = Ok (chunk', j) -> j <= i + k.
Proof.
  intros Hk Hstar Heof. revert k i chunk hasContent Hk.
  induction rest as [|line rest IH]; intros k i chunk hasContent Hk; [done|].
  destruct k as [|k]; simpl in Hk.
  - injection Hk as ->. rewrite chunkBody_boundary by (split; auto).
    intros [= _ <-]. lia.
  - cbn [chunkBody].
    destruct (decide (line = EOF_MARKER)); [intros [= _ <-]; lia|].
    destruct (startsWith line (lit "***") || startsWith line (lit "@@"));
      [intros [= _ <-]; lia|].
    cbv zeta.
    repeat case_decide;
      try (intros Hbody; apply (IH k) in Hbody; [lia | done]).
    destruct hasContent; [intros [= _ <-]; lia | done].
Qed.

Lemma addLoop_stops (rest : list str) (k i : nat) (stop contents : str) :
  rest !! k = Some stop -> startsWith stop (lit "+") = false ->
  (addLoop rest contents i).2 <= i + k.
Proof.
  intros Hk Hstop. revert k i contents Hk.
  induction rest as [|line rest IH]; intros k i contents Hk; [done|].
  destruct k as [|k]; simpl in Hk.
  - injection Hk as ->. cbn [addLoop]. rewrite Hstop. simpl. lia.
  - cbn [addLoop]. destruct (startsWith line (lit "+")); [|simpl; lia].
    etrans; [by apply (IH k)|]. lia.
Qed.

Lemma parseUpdateFileChunk_stops (lines : list str) (e i consumed : nat)
    (stop : str) (chunk : UpdateFileChunk) :
  lines !! e = Some stop ->
  startsWith stop (lit "***") = true -> stop <> EOF_MARKER ->
  i < e ->
  parseUpdateFileChunk lines i = Ok (chunk, consumed) -> i + consumed <= e.
Proof.
  intros He Hstar Heof Hi. unfold parseUpdateFileChunk.
  destruct (lines !! i) as [first|]; [|done].
  assert (Hbody : forall i' c c' j,
            i <= i' <= e -> chunkBody (drop i' lines) i' c false = Ok (c', j) ->
            i + (j - i) <= e).
  { intros i' c c' j Hi' Hbody.
    pose proof (chunkBody_index _ _ _ _ _ _ Hbody).
    eapply (chunkBody_stops _ (e - i')) in Hbody; [lia | |done..].
    rewrite lookup_drop. by replace (i' + (e - i')) with e by lia. }
  destruct (decide (first = EMPTY_CHANGE_CONTEXT_MARKER)).
  { destruct (chunkBody _ _ _ _) as [[c j]|err] eqn:Hrun; [|done].
    simpl. intros [= _ <-]. eapply Hbody; [|done]. lia. }
  destruct (startsWith first CHANGE_CONTEXT_MARKER).
  { destruct (chunkBody _ _ _ _) as [[c j]|err] eqn:Hrun; [|done].
    simpl. intros [= _ <-]. eapply Hbody; [|done]. lia. }
  destruct (chunkBody _ _ _ _) as [[c j]|err] eqn:Hrun; [|done].
  simpl. intros [= _ <-]. eapply Hbody; [|done]. lia.
Qed.

Lemma chunkLoop_stops (fuel : nat) (lines : list str) (e i j : nat) (stop : str)
    (chunks chunks' : list UpdateFileChunk) :
  lines !! e = Some stop ->
  startsWith stop (lit "***") = true -> stop <> EOF_MARKER ->
  i <= e ->
  chunkLoop fuel lines i chunks = Some (Ok (chunks', j)) -> j <= e.
Proof.
  intros He Hstar Heof. revert i chunks.
  induction fuel as [|fuel IH]; intros i chunks Hi; rewrite chunkLoop_unfold;
    destruct (lines !! i) as [line|] eqn:Hline; try (intros [= _ <-]; lia);
    destruct (startsWith line (lit "***")) eqn:Hl; try (intros [= _ <-]; lia);
    try done.
  assert (i < e).
  { destruct (decide (i = e)) as [->|]; [|lia]. congruence. }
  destruct (decide (trim line = [])); [apply IH; lia|].
  destruct (parseUpdateFileChunk lines i) as [[chunk consumed]|err] eqn:Hchunk;
    [|done].
  apply IH. by eapply parseUpdateFileChunk_stops.
Qed.

(** X6. Inside a valid envelope no hunk reaches the end marker: a hunk
    parsed at an index before the marker consumes at least its header line
    and stops at the marker at the latest, so the envelope loop ends exactly
    on the marker. *)
Theorem parseOneHunk_inside (fuel : nat) (lines : list str) (i consumed : nat)
    (hunk : Hunk) :
  ValidEnvelope lines ->
  i < length lines - 1 ->
  parseOneHunk fuel lines i = Some (Ok (hunk, consumed)) ->
  1 <= consumed /\ i + consumed <= length lines - 1.
Proof.
  intros (Hlen & _ & Hlast) Hi Hparse.
  split; [by eapply parseOneHunk_progress|].
  rewrite last_lookup in Hlast.
  replace (pred (length lines)) with (length lines - 1) in Hlast by lia.
  revert Hparse. unfold parseOneHunk.
  destruct (lines !! i) as [raw|]; [|done].
  destruct (startsWith (trim raw) ADD_FILE_MARKER).
  { pose proof (addLoop_index (drop (S i) lines) [] (S i)) as Hlow.
    pose proof (addLoop_stops (drop (S i) lines) (length lines - 1 - S i) (S i)
                  END_PATCH_MARKER []) as Hhigh.
    rewrite lookup_drop in Hhigh.
    replace (S i + (length lines - 1 - S i)) with (length lines - 1) in Hhigh
      by lia.
    specialize (Hhigh Hlast eq_refl).
    destruct (addLoop _ _ _) as [contents j]. simpl in *.
    intros [= _ <-]. lia. }
  destruct (startsWith (trim raw) DELETE_FILE_MARKER); [intros [= _ <-]; lia|].
  destruct (startsWith (trim raw) UPDATE_FILE_MARKER); [|done].
  assert (Hmove : S i <= (match lines !! S i with
                          | Some next =>
                              if startsWith next MOVE_TO_MARKER then
                                (Some (substring next (length MOVE_TO_MARKER)),
                                 S (S i))
                              else (None, S i)
                          | None => (None, S i)
                          end).2 <= length lines - 1).
  { destruct (lines !! S i) as [next|] eqn:Hnext; [|simpl; lia].
    destruct (startsWith next MOVE_TO_MARKER) eqn:Hmv; simpl; [|lia].
    destruct (decide (S i = length lines - 1)) as [Heq|]; [|lia].
    rewrite Heq, Hlast in Hnext. injection Hnext as <-. discriminate Hmv. }
  destruct (match lines !! S i with
            | Some next => _
            | None => _
            end) as [movePath j].
  simpl in Hmove.
  destruct (chunkLoop fuel lines j []) as [[[chunks k]|err]|] eqn:Hloop; try done.
  pose proof (chunkLoop_index _ _ _ _ _ _ Hloop).
  eapply chunkLoop_stops in Hloop; [|exact Hlast|done|done|lia].
  destruct (decide (length chunks = 0)); [done|].
  intros [= _ <-]. lia.
Qed.

(** X6 on the add hunk of the test-suite. *)
Lemma parseOneHunk_inside_witness :
  let lines := [BEGIN_PATCH_MARKER; lit "*** Add File: path/add.py";
                lit "+abc"; lit "+def"; END_PATCH_MARKER] in
  1 <= 3 /\ 1 + 3 <= length lines - 1.
Proof.
  intros lines.
  apply (parseOneHunk_inside 0 lines 1 3
           (AddFile (lit "path/add.py") (lit "abc
def
"))).
  - repeat split. simpl. lia.
  - simpl. lia.
  - reflexivity.
Defined.

(** X5 on the three-hunk patch of the test-suite. *)
Lemma parsePatch_terminates_witness :
  is_Some (parsePatch 8 (lit "*** Begin Patch
*** Add File: hello.txt
+Hello world
*** Update File: file.py
@@
+line
*** Delete File: obsolete.txt
*** End Patch")).
Proof.
  apply parsePatch_terminates.
  - vm_compute.
    repeat (constructor;
            [intros (H1 & H2 & H3);
             first [discriminate H1 | by apply H2 | discriminate H3]|]).
    constructor.
  - vm_compute. lia.
Defined.

(** X8 on two single-line edits of a four-line file. *)
Lemma editedLines_substitutes_witness :
  let chunks := [replaceBarByBaz; replaceXbyZ] in
  let content := lit "foo
bar
x
y
" in
  editedLines content chunks =
  Ok (substituteFrom (fileLines content) 0
        [ {| rStart := 1; rLength := 1; rNewLines := [lit "baz"] |};
          {| rStart := 2; rLength := 1; rNewLines := [lit "z"] |} ]).
Proof.
  intros chunks content.
  apply (editedLines_substitutes content chunks _ 3).
  - repeat constructor; discriminate.
  - reflexivity.
Defined.

(** X12 on a buffer that ends in a blank line. *)
Lemma fileLines_serialize_witness :
  fileLines (serialize [lit "a"; []]) =
  if decide (last [lit "a"; []] = Some []) then removelast [lit "a"; []]
  else [lit "a"; []].
Proof.
  apply fileLines_serialize.
  repeat constructor; vm_compute; intros H; inversion H as [|? ? ? H']; inversion H'.
Defined.

(** * Further properties of the update applier *)

Lemma sortByStartDesc_same_start (rs : list Replacement) (n : nat) :
  Forall (fun r => rStart r = n) rs -> sortByStartDesc rs = rs.
Proof.
  intros Hall. induction Hall as [|r rs Hr Hall IH]; [done|].
  simpl. rewrite IH. destruct Hall as [|x xs Hx _]; [done|].
  simpl. rewrite decide_False by lia. done.
Qed.

Lemma insertByStart_filter (r : Replacement) (sorted : list Replacement) (n : nat) :
  filter (fun x => rStart x = n) (insertByStart r sorted) =
  filter (fun x => rStart x = n) (r :: sorted).
Proof.
  induction sorted as [|x xs IH]; [done|].
  cbn [insertByStart]. case_decide as Hlt; [|done].
  rewrite filter_cons, IH, !filter_cons.
  repeat case_decide; try done; lia.
Qed.

Lemma sortByStartDesc_filter (rs : list Replacement) (n : nat) :
  filter (fun r => rStart r = n) (sortByStartDesc rs) =
  filter (fun r => rStart r = n) rs.
Proof.
  induction rs as [|r rs IH]; [done|].
  cbn [sortByStartDesc foldr]. fold (sortByStartDesc rs).
  by rewrite insertByStart_filter, !filter_cons, IH.
Qed.

(** X7. The sort of the queue loses nothing and adds nothing, and orders
    the replacements by start from the highest to the lowest; it is stable:
    for every start, the replacements with that start come out in the order
    in which they were queued. *)
Theorem sortByStartDesc_spec (rs : list Replacement) :
  sortByStartDesc rs ≡ₚ rs /\
  StronglySorted (fun a b => rStart b <= rStart a) (sortByStartDesc rs) /\
  (forall n, filter (fun r => rStart r = n) (sortByStartDesc rs) =
             filter (fun r => rStart r = n) rs).
Proof.
  split; [apply sortByStartDesc_perm|]. split; [apply sortByStartDesc_sorted|].
  intros n. apply sortByStartDesc_filter.
Qed.

(** ** Replacements stay inside the file *)

Lemma seekContext_le (lines : list str) (chunk : UpdateFileChunk) (searchStart : nat) :
  searchStart <= length lines -> seekContext lines chunk searchStart <= length lines.
Proof.
  intros Hle. unfold seekContext.
  destruct (changeContext chunk) as [ctx|]; [|done].
  destruct (decide (ctx = [])); [done|].
  pose proof (seekSequence_cons_spec lines [ctx] searchStart) as H.
  destruct (seekSequence lines [ctx] searchStart) as [i|]; [|done].
  destruct H as (_ & Hfit & _); [done|]. simpl in Hfit. lia.
Qed.

Lemma processChunk_bounds (lines : list str) (chunk : UpdateFileChunk)
    (searchStart searchStart' : nat) (r : Replacement) :
  searchStart <= length lines ->
  processChunk lines chunk searchStart = Ok (r, searchStart') ->
  InBounds lines r /\ searchStart' <= length lines.
Proof.
  intros Hle. pose proof (seekContext_le lines chunk searchStart Hle) as Hctx.
  unfold processChunk, InBounds.
  destruct (decide (length (oldLines chunk) = 0)).
  { intros [= <- <-]. simpl. lia. }
  destruct (normalize chunk) as [pattern new].
  destruct (decide (pattern = [])) as [->|Hne].
  { rewrite seekSequence_nil. intros [= <- <-]. simpl. lia. }
  pose proof (seekSequence_cons_spec lines pattern
                (seekContext lines chunk searchStart) Hne) as H.
  destruct (seekSequence lines pattern _) as [i|]; [|done].
  intros [= <- <-]. simpl. lia.
Qed.

(** X9. While the chunks of an update are processed the search cursor
    never passes the end of the file, and every queued replacement lies
    inside the file: no splice reaches beyond the last line. *)
Theorem chunksLoop_in_bounds (lines : list str) (chunks : list UpdateFileChunk)
    (searchStart searchStart' : nat) (queued replacements : list Replacement) :
  searchStart <= length lines ->
  Forall (InBounds lines) queued ->
  chunksLoop lines chunks searchStart queued = Ok (replacements, searchStart') ->
  Forall (InBounds lines) replacements /\ searchStart' <= length lines.
Proof.
  revert searchStart queued.
  induction chunks as [|chunk chunks IH]; intros searchStart queued Hle Hqueued;
    simpl.
  - by intros [= <- <-].
  - destruct (processChunk lines chunk searchStart) as [[r s]|e] eqn:Hstep; [|done].
    apply processChunk_bounds in Hstep as [Hr Hs]; [|done].
    simpl. apply IH; [done|]. apply Forall_app. by repeat constructor.
Qed.

(** X9 on the update of the test-suite. *)
Lemma chunksLoop_in_bounds_witness :
  Forall (InBounds [lit "foo"; lit "bar"])
    [ {| rStart := 1; rLength := 1; rNewLines := [lit "baz"] |} ] /\
  2 <= length [lit "foo"; lit "bar"].
Proof.
  apply (chunksLoop_in_bounds [lit "foo"; lit "bar"] [replaceBarByBaz] 0 2 []).
  - simpl. lia.
  - constructor.
  - reflexivity.
Defined.

(** ** What an update can throw *)





(** ** Pure additions *)

Lemma chunksLoop_additions (lines : list str) (chunks : list UpdateFileChunk)
    (searchStart : nat) (queued : list Replacement) :
  Forall (fun chunk => oldLines chunk = []) chunks ->
  exists searchStart',
    chunksLoop lines chunks searchStart queued =
    Ok (queued ++ (additionOf lines <$> chunks), searchStart').
Proof.
  intros Hall. revert searchStart queued.
  induction Hall as [|chunk chunks Hchunk Hall IH]; intros searchStart queued.
  - exists searchStart. simpl. by rewrite app_nil_r.
  - simpl. rewrite processChunk_pure_addition by done. simpl.
    destruct (IH (seekContext lines chunk searchStart)
                (queued ++ [additionOf lines chunk])) as [s' Hs'].
    exists s'. rewrite <- app_assoc in Hs'. exact Hs'.
Qed.

Lemma applyReplacements_additions (lines tail : list str)
    (chunks : list UpdateFileChunk) :
  applyReplacements (lines ++ tail) (additionOf lines <$> chunks) =
  lines ++ concat (newLines <$> reverse chunks) ++ tail.
Proof.
  revert tail. induction chunks as [|chunk chunks IH]; intros tail; [done|].
  rewrite fmap_cons. unfold applyReplacements. cbn [foldl].
  fold (applyReplacements
          (splice (lines ++ tail) (rStart (additionOf lines chunk))
             (rLength (additionOf lines chunk))
             (rNewLines (additionOf lines chunk)))
          (additionOf lines <$> chunks)).
  unfold splice. cbn [additionOf rStart rLength rNewLines].
  rewrite take_app_length, Nat.add_0_r, drop_app_length.
  rewrite IH, reverse_cons, fmap_app, concat_app. simpl.
  by rewrite app_nil_r, <- !app_assoc.
Qed.

(** X11. An update made of pure additions (chunks without old lines) never
    fails, whatever their context hints, and leaves every line of the file in
    place: the new lines are appended after the last line.  Each addition is
    spliced at the original end of the file, so the lines of a later chunk
    come before those of an earlier one. *)
Theorem editedLines_additions (content : str) (chunks : list UpdateFileChunk) :
  Forall (fun chunk => oldLines chunk = []) chunks ->
  editedLines content chunks =
  Ok (fileLines content ++ concat (newLines <$> reverse chunks)).
Proof.
  intros Hall. unfold editedLines.
  destruct (chunksLoop_additions (fileLines content) chunks 0 [] Hall) as [s ->].
  simpl.
  rewrite (sortByStartDesc_same_start _ (length (fileLines content)))
    by (apply Forall_fmap, Forall_true; done).
  pose proof (applyReplacements_additions (fileLines content) [] chunks) as H.
  rewrite !app_nil_r in H. by rewrite H.
Qed.

(** X7 on a queue with two replacements at start 0 around one at 3. *)
Lemma sortByStartDesc_spec_witness :
  let first := {| rStart := 0; rLength := 0; rNewLines := [lit "a"] |} in
  let high := {| rStart := 3; rLength := 1; rNewLines := [lit "c"] |} in
  let second := {| rStart := 0; rLength := 1; rNewLines := [lit "b"] |} in
  filter (fun r => rStart r = 0) (sortByStartDesc [first; high; second])
  = filter (fun r => rStart r = 0) [first; high; second].
Proof.
  intros first high second.
  exact (proj2 (proj2 (sortByStartDesc_spec [first; high; second])) 0).
Defined.

(** On that queue the sort gives the high start first and keeps the two
    at 0 in queue order. *)
Example sortByStartDesc_mixed :
  let first := {| rStart := 0; rLength := 0; rNewLines := [lit "a"] |} in
  let high := {| rStart := 3; rLength := 1; rNewLines := [lit "c"] |} in
  let second := {| rStart := 0; rLength := 1; rNewLines := [lit "b"] |} in
  sortByStartDesc [first; high; second] = [high; first; second].
Proof. reflexivity. Qed.

(** X11 on two additions to a one-line file. *)
Lemma editedLines_additions_witness :
  let first := {| changeContext := None; oldLines := [];
                  newLines := [lit "one"]; isEndOfFile := false |} in
  let second := {| changeContext := Some (lit "missing"); oldLines := [];
                   newLines := [lit "two"]; isEndOfFile := false |} in
  editedLines (lit "a
") [first; second] = Ok [lit "a"; lit "two"; lit "one"].
Proof.
  intros first second.
  apply (editedLines_additions (lit "a
") [first; second]).
  repeat constructor.
Defined.

(** ** An update that changes nothing *)

Lemma ExactAt_window (lines pattern : list str) (m : nat) :
  ExactAt lines pattern m -> take (length pattern) (drop m lines) = pattern.
Proof.
  intros Hexact. apply list_eq. intros j.
  destruct (decide (j < length pattern)) as [Hj|Hj].
  - rewrite lookup_take_lt, lookup_drop by done.
    destruct (lookup_lt_is_Some_2 pattern j Hj) as [p Hp].
    destruct (Hexact j p Hp) as (l & Hl & ->). by rewrite Hl, Hp.
  - rewrite lookup_take_ge by lia. symmetry. apply lookup_ge_None. lia.
Qed.

Lemma normalize_same (chunk : UpdateFileChunk) :
  oldLines chunk = newLines chunk -> (normalize chunk).2 = patternOf chunk.
Proof.
  unfold patternOf, normalize. intros <-.
  destruct (decide (last (oldLines chunk) = Some [] /\ isEndOfFile chunk = false))
    as [[Hlast _]|_]; [|done].
  simpl. by rewrite decide_True.
Qed.

(** X10. An update with one chunk whose old and new lines are the same
    leaves the line buffer as it was, provided the position the Line Matcher
    returns is an exact match.  (At a position that matches only after
    trimming, the file's lines are replaced by the patch's.) *)
Theorem editedLines_unchanged (content : str) (chunk : UpdateFileChunk) (m : nat) :
  let lines := fileLines content in
  oldLines chunk = newLines chunk ->
  patternOf chunk <> [] ->
  seekSequence lines (patternOf chunk) (seekContext lines chunk 0) = Some m ->
  ExactAt lines (patternOf chunk) m ->
  editedLines content [chunk] = Ok lines.
Proof.
  intros lines Hsame Hne Hseek Hexact. unfold editedLines. fold lines. simpl.
  rewrite processChunk_seek by done. fold lines. rewrite Hseek. simpl.
  rewrite normalize_same by done. unfold splice. simpl.
  f_equal.
  transitivity (take m lines ++ take (length (patternOf chunk)) (drop m lines)
                ++ drop (length (patternOf chunk)) (drop m lines)).
  - by rewrite (ExactAt_window lines (patternOf chunk) m Hexact), drop_drop.
  - by rewrite !take_drop.
Qed.

(** X10 on a context line kept as it is. *)
Lemma editedLines_unchanged_witness :
  let chunk := {| changeContext := None; oldLines := [lit "bar"];
                  newLines := [lit "bar"]; isEndOfFile := false |} in
  editedLines (lit "foo
bar
") [chunk] = Ok [lit "foo"; lit "bar"].
Proof.
  intros chunk.
  apply (editedLines_unchanged (lit "foo
bar
") chunk 1).
  - reflexivity.
  - discriminate.
  - reflexivity.
  - apply exactFrom_true. reflexivity.
Defined.

(** The proviso of X10 is needed: a line that matches after trimming only
    is rewritten. *)
Example unchanged_chunk_reindents :
  applyUpdateChunks (lit "  bar
") [ {| changeContext := None; oldLines := [lit "bar"];
        newLines := [lit "bar"]; isEndOfFile := false |} ]
  = Ok (lit "bar
").
Proof. reflexivity. Qed.

(** * Properties of [applyPatch] *)

Section ApplyPatch.

Context {FS E : Type} `{!FileSystem FS E}.

Lemma applyHunks_cons (cwd : str) (hunk : Hunk) (rest : list Hunk)
    (affectedFiles : list str) (fs : FS) :
  applyHunks cwd (hunk :: rest) affectedFiles fs =
  match applyHunk cwd hunk fs with
  | (inr affected, fs') => applyHunks cwd rest (affectedFiles ++ [affected]) fs'
  | (inl e, fs') => (inl e, fs')
  end.
Proof. reflexivity. Qed.

Lemma applyHunk_report (cwd : str) (hunk : Hunk) (fs fs' : FS) (affected : str) :
  applyHunk cwd hunk fs = (inr affected, fs') -> affected = reportOf hunk.
Proof.
  destruct hunk as [path contents|path|path movePath chunks];
    unfold applyHunk, reportOf, mbind, io_bind, mret, io_ret, await, throwing;
    intros Hrun; repeat case_match; simplify_eq; done.
Qed.


Lemma applyHunks_report (cwd : str) (hunks : list Hunk)
    (affectedFiles affected : list str) (fs fs' : FS) :
  applyHunks cwd hunks affectedFiles fs = (inr affected, fs') ->
  affected = affectedFiles ++ (reportOf <$> hunks).
Proof.
  revert affectedFiles fs.
  induction hunks as [|hunk hunks IH]; intros affectedFiles fs.
  - intros [= <- _]. by rewrite app_nil_r.
  - rewrite applyHunks_cons.
    destruct (applyHunk cwd hunk fs) as [[e|a] fs1] eqn:Hhunk; [done|].
    intros Hrest. apply IH in Hrest as ->.
    apply applyHunk_report in Hhunk as ->. by rewrite <- app_assoc.
Qed.


(** X14. When [applyPatch] resolves, its list has one entry for each
    parsed hunk, in patch order: [A path] for an add, [D path] for a delete,
    and for an update [M] followed by the move destination, or by the path
    when there is no destination or the destination is the empty string. *)
Theorem applyPatch_report (fuel : nat) (patch cwd : str) (fs fs' : FS)
    (affected : list str) :
  applyPatch fuel patch cwd fs = Some (inr affected, fs') ->
  exists hunks,
    parsePatch fuel patch = Some (Ok hunks) /\ affected = reportOf <$> hunks.
Proof.
  unfold applyPatch.
  destruct (parsePatch fuel patch) as [[hunks|e]|]; [|done..].
  intros [= Hrun]. exists hunks. split; [done|].
  by apply applyHunks_report in Hrun.
Qed.

(** X15. Hunks are applied one after the other on the state the previous
    ones left.  When a hunk is rejected the patch is rejected with the state
    reached at that point: what earlier hunks did stays, and no later hunk is
    attempted. *)
Theorem applyHunks_app (cwd : str) (pre rest : list Hunk)
    (affectedFiles : list str) (fs : FS) :
  applyHunks cwd (pre ++ rest) affectedFiles fs =
  match applyHunks cwd pre affectedFiles fs with
  | (inr affected, fs') => applyHunks cwd rest affected fs'
  | (inl e, fs') => (inl e, fs')
  end.
Proof.
  revert affectedFiles fs.
  induction pre as [|hunk pre IH]; intros affectedFiles fs; [done|].
  change ((hunk :: pre) ++ rest) with (hunk :: pre ++ rest).
  rewrite !applyHunks_cons.
  destruct (applyHunk cwd hunk fs) as [[e|a] fs1]; [done|]. apply IH.
Qed.


End ApplyPatch.

(** X14 on the move of the test-suite. *)
Lemma applyPatch_report_witness :
  exists hunks,
    parsePatch 9 movePatch = Some (Ok hunks) /\
    [lit "M dst.txt"] = reportOf <$> hunks.
Proof.
  apply (applyPatch_report 9 movePatch (lit "/tmp") testDirectory
           (delete (lit "/tmp/src.txt")
              (<[lit "/tmp/dst.txt" := lit "line2
"]> testDirectory))).
  vm_compute. reflexivity.
Defined.


(** The move of the test-suite on the in-memory filesystem: the source is
    gone and the destination holds the new content. *)
Example move_on_memoryFS :
  exists fs',
    applyPatch 9 movePatch (lit "/tmp") testDirectory
      = Some (inr [lit "M dst.txt"], fs') /\
    fs' !! lit "/tmp/src.txt" = None /\
    fs' !! lit "/tmp/dst.txt" = Some (lit "line2
").
Proof. eexists. split; [vm_compute; reflexivity|]. split; vm_compute; reflexivity. Qed.

(** * Further properties of the Line Matcher *)

(** X17. For a non-empty pattern the Line Matcher returns the first
    position, from [start] on, at which every line agrees with the pattern
    line facing it after trimming, and not-found when there is none: a
    position that passes the exact pass passes the trimmed pass too, so the
    exact pass never changes the result. *)
Theorem seekSequence_first_trimmed (lines pattern : list str) (start : nat) :
  pattern <> [] ->
  match seekSequence lines pattern start with
  | Some i =>
      start <= i /\ TrimmedAt lines pattern i /\
      forall k, start <= k < i -> ~ TrimmedAt lines pattern k
  | None => forall k, start <= k -> ~ TrimmedAt lines pattern k
  end.
Proof.
  intros Hne.
  assert (Hiff : forall k, FoundAt lines pattern k <-> TrimmedAt lines pattern k).
  { intros k. split; [|by right].
    intros [H|H]; [by apply ExactAt_TrimmedAt | done]. }
  pose proof (seekSequence_cons_spec lines pattern start Hne) as H.
  destruct (seekSequence lines pattern start) as [i|].
  - destruct H as (Hle & _ & Hfound & Hmin). split; [done|].
    split; [by apply Hiff|]. intros k Hk Htrim. by apply (Hmin k Hk), Hiff.
  - intros k Hk Htrim. by apply (H k Hk), Hiff.
Qed.

(** X17 on a file whose indentation differs from the patch's. *)
Lemma seekSequence_first_trimmed_witness :
  match seekSequence [lit "a"; lit "    b"] [lit "b  "] 0 with
  | Some i =>
      0 <= i /\ TrimmedAt [lit "a"; lit "    b"] [lit "b  "] i /\
      forall k, 0 <= k < i -> ~ TrimmedAt [lit "a"; lit "    b"] [lit "b  "] k
  | None => forall k, 0 <= k -> ~ TrimmedAt [lit "a"; lit "    b"] [lit "b  "] k
  end.
Proof.
  apply (seekSequence_first_trimmed [lit "a"; lit "    b"] [lit "b  "] 0).
  discriminate.
Defined.

(** * White space around the envelope *)

Lemma trimStart_app_white (ws s : str) :
  White ws -> trimStart (ws ++ s) = trimStart s.
Proof.
  induction 1 as [|c ws Hc Hws IH]; [done|].
  change ((c :: ws) ++ s) with (c :: ws ++ s). simpl. by rewrite Hc.
Qed.

Lemma trimEnd_app_white (s ws : str) :
  White ws -> trimEnd (s ++ ws) = trimEnd s.
Proof.
  intros Hws. unfold trimEnd. rewrite reverse_app.
  by rewrite trimStart_app_white by by apply Forall_reverse.
Qed.

Lemma trim_app_white (s ws : str) : White ws -> trim (s ++ ws) = trim s.
Proof.
  intros Hws. unfold trim. induction s as [|c s IH].
  - change ([] ++ ws) with ws.
    rewrite <- (app_nil_r ws) at 1. rewrite trimStart_app_white by done.
    done.
  - change ((c :: s) ++ ws) with (c :: s ++ ws). simpl.
    destruct (isWhite c); [done|].
    by apply (trimEnd_app_white (c :: s)).
Qed.

(** X19. White space before and after the patch text is ignored:
    [parsePatch] works on the trimmed text, so a patch gives the same result
    with any white space (blanks, tabs, line ends) put around it. *)
Theorem parsePatch_surrounding_white (fuel : nat) (before patch after : str) :
  White before -> White after ->
  parsePatch fuel (before ++ patch ++ after) = parsePatch fuel patch.
Proof.
  intros Hbefore Hafter.
  assert (Htrim : trim (before ++ patch ++ after) = trim patch).
  { rewrite app_assoc, trim_app_white by done.
    unfold trim. by rewrite trimStart_app_white. }
  unfold parsePatch. by rewrite Htrim.
Qed.

(** X19 on the empty envelope between a line end and a blank line. *)
Lemma parsePatch_surrounding_white_witness :
  parsePatch 0 ([10%N; 32%N] ++ lit "*** Begin Patch
*** End Patch" ++ [10%N; 10%N])
  = parsePatch 0 (lit "*** Begin Patch
*** End Patch").
Proof.
  apply parsePatch_surrounding_white; repeat constructor.
Defined.

(** * An update hunk with one chunk *)

Lemma contextHeader_no_star (ctx : option str) :
  startsWith (contextHeader ctx) (lit "***") = false /\
  startsWith (contextHeader ctx) MOVE_TO_MARKER = false /\
  trim (contextHeader ctx) <> [].
Proof.
  split; [by destruct ctx|]. split; [by destruct ctx|].
  intros Hblank. apply trim_nil_white in Hblank.
  destruct ctx; by apply Forall_cons in Hblank as [Hc _].
Qed.

(** X18. An update header, an optional move line, a chunk header, a run of
    prefixed lines and then a line starting with [***] parse into one update
    hunk: the path follows the marker on the trimmed header, the destination
    is what follows the move marker, and the only chunk has the sides of the
    run.  The hunk consumes every line before the [***] line. *)
Theorem parseOneHunk_update (fuel : nat) (pre : list str) (header : str)
    (move ctx : option str) (body : list str) (stop : str) (rest : list str) :
  startsWith (trim header) UPDATE_FILE_MARKER = true ->
  Forall Prefixed body ->
  startsWith stop (lit "***") = true -> stop <> EOF_MARKER ->
  1 <= fuel ->
  parseOneHunk fuel
    (pre ++ header :: moveLines move ++ contextHeader ctx :: body ++ stop :: rest)
    (length pre) =
  Some (Ok (UpdateFile (substring (trim header) (length UPDATE_FILE_MARKER))
              move [parsedChunk ctx body false],
            2 + length (moveLines move) + length body)).
Proof.
  intros Hupd Hbody Hstop Heof Hfuel.
  destruct (contextHeader_no_star ctx) as (Hstar & Hmove & Hink).
  set (pre1 := pre ++ header :: moveLines move).
  set (pre2 := pre1 ++ contextHeader ctx :: body).
  set (lines := pre ++ header :: moveLines move
                  ++ contextHeader ctx :: body ++ stop :: rest).
  assert (Hl1 : lines = pre1 ++ contextHeader ctx :: body ++ stop :: rest).
  { unfold lines, pre1. by rewrite <- app_assoc. }
  assert (Hl2 : lines = pre2 ++ stop :: rest).
  { rewrite Hl1. unfold pre2. by rewrite <- app_assoc. }
  assert (Hn1 : length pre1 = S (length pre) + length (moveLines move)).
  { unfold pre1. rewrite length_app. simpl. lia. }
  assert (Hn2 : length pre2 = length pre1 + S (length body)).
  { unfold pre2. rewrite length_app. simpl. lia. }
  assert (Hloop : chunkLoop fuel lines (length pre1) [] =
                  Some (Ok ([parsedChunk ctx body false], length pre2))).
  { rewrite chunkLoop_unfold.
    rewrite Hl1 at 1. rewrite lookup_middle, Hstar.
    destruct fuel as [|fuel]; [lia|].
    rewrite decide_False by done.
    rewrite Hl1 at 1.
    rewrite (proj1 (parseUpdateFileChunk_run pre1 ctx body (stop :: rest) Hbody))
      by (right; exists stop; split; [done | split; auto]).
    rewrite chunkLoop_unfold, <- Hn2.
    rewrite Hl2 at 1. by rewrite lookup_middle, Hstop. }
  assert (Hheader : lines !! length pre = Some header)
    by apply lookup_middle.
  unfold parseOneHunk. rewrite Hheader.
  destruct (update_not_add_delete _ Hupd) as [-> ->]. rewrite Hupd.
  destruct move as [destination|].
  - assert (Hnext : lines !! S (length pre)
                    = Some (MOVE_TO_MARKER ++ destination : str)).
    { unfold lines. rewrite (cons_middle header pre), app_assoc.
      replace (S (length pre)) with (length (pre ++ [header]))
        by (rewrite length_app; simpl; lia).
      apply lookup_middle. }
    rewrite Hnext, startsWith_app.
    replace (S (S (length pre))) with (length pre1) by (simpl in Hn1; lia).
    rewrite Hloop. simpl. do 3 f_equal. simpl in Hn1. lia.
  - assert (Hnext : lines !! S (length pre) = Some (contextHeader ctx)).
    { rewrite Hl1. replace (S (length pre)) with (length pre1)
        by (simpl in Hn1; lia).
      apply lookup_middle. }
    rewrite Hnext, Hmove.
    replace (S (length pre)) with (length pre1) by (simpl in Hn1; lia).
    rewrite Hloop. simpl. do 3 f_equal. simpl in Hn1. lia.
Qed.

(** X18 on the update with a move of the test-suite. *)
Lemma parseOneHunk_update_witness :
  parseOneHunk 1
    ([BEGIN_PATCH_MARKER] ++ lit "*** Update File: path/update.py"
       :: moveLines (Some (lit "path/update2.py"))
       ++ contextHeader (Some (lit "def f():"))
       :: [lit "-    pass"; lit "+    return 123"] ++ END_PATCH_MARKER :: []) 1 =
  Some (Ok (UpdateFile (lit "path/update.py") (Some (lit "path/update2.py"))
              [parsedChunk (Some (lit "def f():"))
                 [lit "-    pass"; lit "+    return 123"] false], 5)).
Proof.
  apply (parseOneHunk_update 1 [BEGIN_PATCH_MARKER]
           (lit "*** Update File: path/update.py")
           (Some (lit "path/update2.py")) (Some (lit "def f():"))
           [lit "-    pass"; lit "+    return 123"] END_PATCH_MARKER []).
  - reflexivity.
  - constructor; [right; left; reflexivity|].
    constructor; [right; right; reflexivity | constructor].
  - reflexivity.
  - discriminate.
  - lia.
Defined.

(** * The hunks a patch parses into *)

(** X20. When the hunk positions of a valid envelope lead to the end
    marker, [parsePatch] returns, given the fuel, exactly the hunks parsed at
    those positions, in patch order. *)
Theorem parsePatch_hunks (patch : str) (hunks : list Hunk) :
  let lines := split (trim patch) in
  ValidEnvelope lines ->
  HunkPosition lines (length lines - 1) hunks ->
  exists fuel0, forall fuel, fuel0 <= fuel ->
    parsePatch fuel patch = Some (Ok hunks).
Proof.
  intros lines Henv Hpos.
  destruct (HunkPosition_reach lines _ hunks Hpos 0 (Ok hunks)) as [fuel0 Hfuel0].
  { rewrite hunkLoop_unfold. rewrite decide_False by lia. done. }
  exists fuel0. intros fuel Hle.
  rewrite ValidEnvelope_parsePatch by done. by apply Hfuel0.
Qed.

(** X20 on a patch that deletes a file. *)
Lemma parsePatch_hunks_witness :
  exists fuel0, forall fuel, fuel0 <= fuel ->
    parsePatch fuel (lit "*** Begin Patch
*** Delete File: path/delete.py
*** End Patch") = Some (Ok [DeleteFile (lit "path/delete.py")]).
Proof.
  apply (parsePatch_hunks _ [DeleteFile (lit "path/delete.py")]).
  - repeat split. vm_compute. lia.
  - apply (HunkPosition_next _ 1 [] 0 (DeleteFile (lit "path/delete.py")) 1).
    + constructor.
    + vm_compute. lia.
    + reflexivity.
Defined.
